(** * dagmath: the expression graph (core.ts) and the operator-precedence
      resolver (parser.ts), embedded in Rocq.

    Objects with identity are modelled by the identifiers the source gives
    them: every [Expr] carries the [uuid] drawn from the static
    [Expr.counter], and [Units] instances live in an arena indexed by
    allocation order.  Mutable fields of expression objects
    ([lastEvaluated], [_latestValue]) are kept in a table keyed by uuid;
    the immutable part of a node (name, argument list) is the tree itself. *)

From stdpp Require Import gmap strings list sorting pretty.
From Stdlib Require Import ZArith Lia.

Set Warnings "-register-all".
Local Open Scope Z_scope.
Local Open Scope nat_scope.

(** ** Values and expressions (core.ts) *)

(** The payload of a [Value] ([public readonly value: any]): the literals
    the graph constructs are null, numbers, booleans and strings. *)
Inductive jsval :=
  | JNull
  | JNum (n : Z)
  | JBool (b : bool)
  | JStr (s : string).

(** [class Value extends Expr]: its identity ([uuid]) and its payload. *)
Record Value := mkValue { Value_uuid : nat; Value_value : jsval }.

(** [class Expr] with its three concrete subclasses. *)
Inductive Expr :=
  | EValue (v : Value)
  | VarRef (uuid : nat) (name : string)
  | FuncCall (uuid : nat) (funcname : string) (args : list Expr).

Definition Expr_uuid (e : Expr) : nat :=
  match e with
  | EValue v => Value_uuid v
  | VarRef u _ => u
  | FuncCall u _ _ => u
  end.

(** [class Var]: a named slot holding the current defining expression. *)
Record Var := mkVar { Var_name : string; Var_value : Expr; Var_desc : string }.

(** The names of units are compared by [Array.prototype.sort], that is
    by UTF-16 code unit, so they are kept as what a JavaScript string is:
    the sequence of its code units. *)
Abbreviation jsstring := (list N).

(** [class Units]. *)
Record Units := mkUnits { Units_num : list jsstring; Units_den : list jsstring }.

Inductive Error :=
  | CircularReferenceError (msg : string)
  | InvalidRefError (msg : string)
  | JsError (msg : string)        (* [new Error(msg)] *)
  | NativeError (msg : string).   (* a run-time error inside a native function *)

(** What a native function does when called.  Every function of stdlib.ts
    reads the [value] of its arguments and returns [new Value(dag, out)];
    a body may also throw, an error of its own or any of the errors above.
    The graph a native is handed serves it to build its result; natives
    that call back into the graph (define variables, register functions,
    evaluate) are not covered by this model. *)
Inductive NativeResult :=
  | Returns (out : jsval)
  | Throws (err : Error).

(** [type FuncType = (dag, args: Value[]) => Value]. *)
Definition FuncType := list Value → NativeResult.

(** ** The graph *)

Record DAG := mkDAG {
  counter : nat;                       (* the static [Expr.counter] *)
  lastModified : Z;
  NULL : Value;
  ZERO : Value;
  ONE : Value;
  TRUE : Value;
  FALSE : Value;
  vars : gmap string Var;
  unitsMap : gmap jsstring nat;        (* key -> address in [unitsArena] *)
  unitsArena : list Units;             (* every [new Units] ever made *)
  funcs : gmap string FuncType;
  memo : gmap nat (Z * Value);         (* uuid -> (lastEvaluated, _latestValue) *)
  calls : list (string * list Value)   (* trace of native invocations *)
}.

Definition set_counter (c : nat) (d : DAG) : DAG :=
  mkDAG c (lastModified d) (NULL d) (ZERO d) (ONE d) (TRUE d) (FALSE d)
        (vars d) (unitsMap d) (unitsArena d) (funcs d) (memo d) (calls d).
Definition set_vars (vs : gmap string Var) (d : DAG) : DAG :=
  mkDAG (counter d) (lastModified d) (NULL d) (ZERO d) (ONE d) (TRUE d) (FALSE d)
        vs (unitsMap d) (unitsArena d) (funcs d) (memo d) (calls d).
Definition set_units (um : gmap jsstring nat) (ua : list Units) (d : DAG) : DAG :=
  mkDAG (counter d) (lastModified d) (NULL d) (ZERO d) (ONE d) (TRUE d) (FALSE d)
        (vars d) um ua (funcs d) (memo d) (calls d).
Definition set_funcs (fs : gmap string FuncType) (d : DAG) : DAG :=
  mkDAG (counter d) (lastModified d) (NULL d) (ZERO d) (ONE d) (TRUE d) (FALSE d)
        (vars d) (unitsMap d) (unitsArena d) fs (memo d) (calls d).
Definition set_memo (mm : gmap nat (Z * Value)) (d : DAG) : DAG :=
  mkDAG (counter d) (lastModified d) (NULL d) (ZERO d) (ONE d) (TRUE d) (FALSE d)
        (vars d) (unitsMap d) (unitsArena d) (funcs d) mm (calls d).
Definition set_calls (cs : list (string * list Value)) (d : DAG) : DAG :=
  mkDAG (counter d) (lastModified d) (NULL d) (ZERO d) (ONE d) (TRUE d) (FALSE d)
        (vars d) (unitsMap d) (unitsArena d) (funcs d) (memo d) cs.

(** [new DAG()], when the static counter stands at [c]: the five field
    initialisers run in order and each draws one uuid. *)
Definition new_DAG (c : nat) : DAG :=
  mkDAG (c + 5) 0%Z
        (mkValue c JNull)
        (mkValue (c + 1) (JNum 0))
        (mkValue (c + 2) (JNum 1))
        (mkValue (c + 3) (JBool true))
        (mkValue (c + 4) (JBool false))
        ∅ ∅ [] ∅ ∅ [].

(** ** Outcomes of fallible operations

    An operation either returns, throws (the graph it leaves behind is
    kept: a throw does not undo earlier mutations), or, for the recursive
    traversals, exhausts the recursion budget of the model. *)
Inductive Result (A : Type) :=
  | Ok (a : A) (d : DAG)
  | Throw (e : Error) (d : DAG)
  | OutOfFuel.
Arguments Ok {A} a d.
Arguments Throw {A} e d.
Arguments OutOfFuel {A}.

Definition M (A : Type) := DAG → Result A.

Definition ret {A} (a : A) : M A := λ d, Ok a d.
Definition throw {A} (e : Error) : M A := λ d, Throw e d.
Definition bind {A B} (m : M A) (k : A → M B) : M B := λ d,
  match m d with
  | Ok a d' => k a d'
  | Throw e d' => Throw e d'
  | OutOfFuel => OutOfFuel
  end.
Definition lift {A} (f : DAG → A * DAG) : M A := λ d, let '(a, d') := f d in Ok a d'.

Notation "'let*' x ':=' m 'in' k" := (bind m (λ x, k))
  (at level 10, x pattern, m at level 100, k at level 200, only parsing).

(** ** Constructors *)

(** [new Value(dag, value)]: draws the next uuid. *)
Definition new_Value (value : jsval) (d : DAG) : Value * DAG :=
  (mkValue (counter d) value, set_counter (S (counter d)) d).


Definition newNum (value : Z) (d : DAG) : Value * DAG :=
  new_Value (JNum value) d.


Definition newFunc (name : string) (args : list Expr) (d : DAG) : Expr * DAG :=
  (FuncCall (counter d) name args, set_counter (S (counter d)) d).

Definition newVarRef (varname : string) (d : DAG) : Expr * DAG :=
  (VarRef (counter d) varname, set_counter (S (counter d)) d).

Definition getFunc (name : string) (d : DAG) : option FuncType := funcs d !! name.

Definition regFunc (name : string) (f : FuncType) (d : DAG) : DAG :=
  set_funcs (<[name := f]> (funcs d)) d.

(** ** Units interning *)

(** The code units of a literal written in ASCII. *)
Definition js (s : string) : jsstring :=
  Ascii.N_of_ascii <$> String.list_ascii_of_string s.

(** [x <= y] on strings: code unit by code unit, a proper prefix first. *)
Fixpoint code_leb (x y : jsstring) : bool :=
  match x, y with
  | [], _ => true
  | _ :: _, [] => false
  | a :: x', b :: y' =>
      if (a <? b)%N then true
      else if (a =? b)%N then code_leb x' y'
      else false
  end.

Definition code_le (x y : jsstring) : Prop := code_leb x y = true.

#[global] Instance code_le_dec : RelDecision code_le :=
  λ x y, decide (code_leb x y = true).

(** [Array.prototype.sort()] without comparator on an array of strings:
    ascending by code unit. *)
Definition js_sort (l : list jsstring) : list jsstring := merge_sort code_le l.

(** [Array.prototype.join(sep)]. *)
Fixpoint js_join (sep : jsstring) (l : list jsstring) : jsstring :=
  match l with
  | [] => []
  | [x] => x
  | x :: rest => x ++ sep ++ js_join sep rest
  end.

Definition units_key (num den : list jsstring) : jsstring :=
  js_join (js ":") (js_sort num) ++ js "/" ++ js_join (js ":") (js_sort den).

(** [newUnits]: returns the address of the interned instance. *)
Definition newUnits (num den : list jsstring) (d : DAG) : nat * DAG :=
  let key := units_key num den in
  match unitsMap d !! key with
  | Some out => (out, d)
  | None =>
      let out := length (unitsArena d) in
      (out, set_units (<[key := out]> (unitsMap d))
                      (unitsArena d ++ [mkUnits num den]) d)
  end.

(** ** Variables *)

Definition getVar (varname : string) (ensure : bool) (d : DAG) : option Var * DAG :=
  match vars d !! varname with
  | Some out => (Some out, d)
  | None =>
      if ensure then
        let out := mkVar varname (EValue (NULL d)) "" in
        (Some out, set_vars (<[varname := out]> (vars d)) d)
      else (None, d)
  end.

(** The [for ... of] loop of [exprContainsVar] with its early return. *)
Fixpoint any_arg (check : Expr → option bool) (args : list Expr) : option bool :=
  match args with
  | [] => Some false
  | e :: rest =>
      match check e with
      | None => None
      | Some true => Some true
      | Some false => any_arg check rest
      end
  end.

(** [exprContainsVar]; [None] when the recursion budget runs out. *)
Fixpoint exprContainsVar (fuel : nat) (d : DAG) (expr : option Expr)
    (varname : string) : option bool :=
  match fuel with
  | O => None
  | S fuel' =>
      match expr with
      | None => Some false
      | Some (EValue _) => Some false
      | Some (VarRef _ vname) =>
          if String.eqb vname varname then Some true
          else
            match fst (getVar vname false d) with
            | None => Some false
            | Some v => exprContainsVar fuel' d (Some (Var_value v)) varname
            end
      | Some (FuncCall _ _ args) =>
          any_arg (λ e, exprContainsVar fuel' d (Some e) varname) args
      end
  end.

Definition circular_msg (varname : string) : string :=
  "Circular reference for variable: " +:+ varname.

(** [setValue].  Nothing in it touches [lastModified].  The cast
    [getVar(varname, true) as Var] is safe (lemma [getVar_ensure_Some]);
    the [None] branch only keeps the function total. *)
Definition setValue (fuel : nat) (varname : string) (newValue : option Expr) : M Var :=
  λ d,
  let newValue := default (EValue (NULL d)) newValue in
  let '(ov, d1) := getVar varname true d in
  match ov with
  | None => Throw (JsError "TypeError: v is null") d1
  | Some v =>
      match exprContainsVar fuel d1 (Some newValue) varname with
      | None => OutOfFuel
      | Some true => Throw (CircularReferenceError (circular_msg varname)) d1
      | Some false =>
          let v' := mkVar (Var_name v) newValue (Var_desc v) in
          Ok v' (set_vars (<[varname := v']> (vars d1)) d1)
      end
  end.

Definition newVar (fuel : nat) (varname : string) (expr : option Expr) : M Var :=
  setValue fuel varname expr.

(** ** Evaluation *)

Definition lastEvaluated (e : Expr) (d : DAG) : Z :=
  match memo d !! Expr_uuid e with
  | Some (g, _) => g
  | None => (-1)%Z
  end.

(** The [_latestValue] field.  The [Expr] constructor initialises it with
    [dag.ZERO]; the field is only read by the getter of the non-[Value]
    classes, whose instances are all built after the graph's own
    constructor has finished. *)
Definition _latestValue (e : Expr) (d : DAG) : Value :=
  match memo d !! Expr_uuid e with
  | Some (_, v) => v
  | None => ZERO d
  end.

(** [args.map((a) => a.latestValue)]: left to right, stopping at the
    first throw. *)
Fixpoint map_latest (lv : Expr → M Value) (args : list Expr) : M (list Value) :=
  match args with
  | [] => ret []
  | a :: rest =>
      let* v := lv a in
      let* vs := map_latest lv rest in
      ret (v :: vs)
  end.

Definition invalid_ref_msg (funcname : string) : string :=
  "Invalid reference: " +:+ funcname.

(** [func(this.dag, values)]: the invocation is recorded in [calls]. *)
Definition invoke (funcname : string) (func : FuncType) (values : list Value) : M Value :=
  λ d,
  let d1 := set_calls (calls d ++ [(funcname, values)]) d in
  match func values with
  | Returns out => let '(v, d2) := new_Value out d1 in Ok v d2
  | Throws err => Throw err d1
  end.

(** [VarRef.eval]; [lv] is the [latestValue] getter of the referenced
    variable's expression. *)
Definition VarRef_eval (lv : Expr → M Value) (name : string) : M Value :=
  λ d,
  match getVar name false d with
  | (None, d1) => Ok (NULL d1) d1
  | (Some v, d1) => lv (Var_value v) d1
  end.

(** [FuncCall.eval]: the children first, then the lookup, then the call. *)
Definition FuncCall_eval (lv : Expr → M Value) (funcname : string)
    (args : list Expr) : M Value :=
  let* values := map_latest lv args in
  λ d,
  match getFunc funcname d with
  | None => Throw (InvalidRefError (invalid_ref_msg funcname)) d
  | Some func => invoke funcname func values d
  end.

(** Dispatch of the abstract method [eval]. *)
Definition eval_with (lv : Expr → M Value) (e : Expr) : M Value :=
  match e with
  | EValue v => ret v
  | VarRef _ name => VarRef_eval lv name
  | FuncCall _ funcname args => FuncCall_eval lv funcname args
  end.

(** The getter [latestValue]: [Value] overrides it and returns itself;
    the others re-evaluate when [lastEvaluated < dag.lastModified] and
    stamp the result with the generation read after the evaluation. *)
Definition latestValue_with (lv : Expr → M Value) (e : Expr) : M Value :=
  match e with
  | EValue v => ret v
  | _ =>
      λ d,
      if (lastEvaluated e d <? lastModified d)%Z then
        (let* v := eval_with lv e in
         λ d', Ok v (set_memo (<[Expr_uuid e := (lastModified d', v)]> (memo d')) d')) d
      else Ok (_latestValue e d) d
  end.

(** Tying the knot: [fuel] bounds the nesting depth of getter calls. *)
Fixpoint latestValue (fuel : nat) (e : Expr) : M Value :=
  match fuel with
  | O => λ _, OutOfFuel
  | S fuel' => latestValue_with (latestValue fuel') e
  end.

(** [e.eval()] called directly. *)
Definition eval (fuel : nat) (e : Expr) : M Value := eval_with (latestValue fuel) e.

(** [Var.latestValue]. *)
Definition Var_latestValue (fuel : nat) (v : Var) : M Value :=
  latestValue fuel (Var_value v).

(** [Expr.debugValue] of the three classes; the result is plain data. *)
Inductive Debug :=
  | DValue (v : jsval)
  | DFunc (func : string) (args : list Debug).

Fixpoint debugValue (e : Expr) : Debug :=
  match e with
  | EValue v => DValue (Value_value v)
  | VarRef _ name => DValue (JStr ("Var(" +:+ name +:+ ")"))
  | FuncCall _ funcname args => DFunc funcname (map debugValue args)
  end.

(** ** The operator-precedence resolver (parser.ts) *)

(** Binding powers are JavaScript numbers.  They are modelled by the
    integers they hold, and the one arithmetic operation the resolver
    performs on them, [bp - 1], by the binary64 difference: the exact
    difference rounded to the nearest representable number, ties to the
    even significand.  Below 2^53 every integer is representable and the
    difference is exact. *)
Definition round_binary64 (v : Z) : Z :=
  let a := Z.abs v in
  if (a <? 2 ^ 53)%Z then v
  else
    let e := (Z.log2 a - 52)%Z in
    let q := (a / 2 ^ e)%Z in
    let r := (a mod 2 ^ e)%Z in
    let half := (2 ^ (e - 1))%Z in
    let q' := if (r <? half)%Z then q
              else if (half <? r)%Z then (q + 1)%Z
              else if Z.even q then q else (q + 1)%Z in
    (Z.sgn v * (q' * 2 ^ e))%Z.

Definition number_sub (x y : Z) : Z := round_binary64 (x - y).

Module Operator.
Definition LEFT : Z := (-1)%Z.
Definition NOASSOC : Z := 0%Z.
Definition RIGHT : Z := 1%Z.

Record t := mk { op : string; bp : Z; assoc : Z; prefixBP : Z }.

(** The constructor with its default arguments
    [assoc = Operator.LEFT, prefixBP = -1]. *)
Definition new (op : string) (bp : Z) (assoc : option Z) (prefixBP : option Z) : t :=
  mk op bp (default LEFT assoc) (default (-1)%Z prefixBP).
End Operator.

(** An element of [OpExpr.children]: [string | Expr]. *)
Inductive item :=
  | IOp (s : string)
  | ITerm (e : Expr).

Definition is_string (x : item) : bool :=
  match x with IOp _ => true | ITerm _ => false end.

Record OpExpr := mkOpExpr { isOP : list bool; children : list item }.

Definition new_OpExpr : OpExpr := mkOpExpr [] [].

(** [OpExpr.push(...op_or_expr)]. *)
Fixpoint push (op_or_expr : list item) (ex : OpExpr) : OpExpr :=
  match op_or_expr with
  | [] => ex
  | x :: rest =>
      push rest (mkOpExpr (isOP ex ++ [is_string x]) (children ex ++ [x]))
  end.

Record Parser := mkParser { opinfos : gmap string Operator.t }.

Definition new_Parser : Parser := mkParser ∅.

Definition setOP (o : Operator.t) (p : Parser) : Parser :=
  mkParser (<[Operator.op o := o]> (opinfos p)).

(** The closures of [ensureExpr].  The cursor [i] they share is passed in
    and handed back explicitly. *)
Section ensureExpr.
Variable p : Parser.
Variable opex : OpExpr.

Definition hasMore (i : nat) : bool := i <? length (children opex).
Definition peek (i : nat) : nat := i.

Definition next (i : nat) : M (nat * nat) :=
  if hasMore i then ret (i, S i) else throw (JsError "No more tokens").

(** [isOP[index]] as a condition: an index out of range reads
    [undefined], which is falsy. *)
Definition isOP_at (index : nat) : bool := default false (isOP opex !! index).

(** [getOp(children[index] as string)]: the table is keyed by operator
    symbols, so anything but a registered symbol misses. *)
Definition getOp (x : option item) : M Operator.t :=
  match x with
  | Some (IOp op) =>
      match opinfos p !! op with
      | Some opinfo => ret opinfo
      | None => throw (JsError ("Invalid operator: " +:+ op))
      end
  | Some (ITerm _) => throw (JsError "Invalid operator: [object Object]")
  | None => throw (JsError "Invalid operator: undefined")
  end.

Definition bpof (index : nat) : M Z :=
  if isOP_at index then
    let* op := getOp (children opex !! index) in
    ret (Operator.bp op)
  else throw (JsError ("Item at index is not an operator: " +:+ pretty index)).

(** [nud], with the recursive [parse] as a parameter.  [index] comes
    from [next], so it is in range, and [push] keeps [isOP] in step with
    [children]: the last branch, where JavaScript would hand back a
    non-expression unchecked, is never taken on such chains. *)
Definition nud (parse : Z → nat → M (Expr * nat)) (index i : nat) : M (Expr * nat) :=
  if isOP_at index then
    let* op := getOp (children opex !! index) in
    if (Operator.prefixBP op <? 0)%Z then
      throw (JsError "([object Object]) is not be a prefix operator")
    else
      let* (arg, i') := parse (Operator.prefixBP op) i in
      let* e := lift (newFunc (Operator.op op) [arg]) in
      ret (e, i')
  else
    match children opex !! index with
    | Some (ITerm e) => ret (e, i)
    | _ => throw (JsError "TypeError: not an expression")
    end.

(** [led]. *)
Definition led (parse : Z → nat → M (Expr * nat)) (index : nat) (left : Expr)
    (i : nat) : M (Expr * nat) :=
  if isOP_at index then
    let* op := getOp (children opex !! index) in
    if (Operator.assoc op =? Operator.LEFT)%Z then
      let* (rhs, i') := parse (Operator.bp op) i in
      let* e := lift (newFunc (Operator.op op) [left; rhs]) in
      ret (e, i')
    else if (Operator.assoc op =? Operator.RIGHT)%Z then
      let* (rhs, i') := parse (number_sub (Operator.bp op) 1) i in
      let* e := lift (newFunc (Operator.op op) [left; rhs]) in
      ret (e, i')
    else throw (JsError ("OP (" +:+ Operator.op op +:+ ") has nonassoc"))
  else throw (JsError "Expressions cannot have an LED method").

(** [parse(rbp)] and its [while] loop. *)
Fixpoint parse (fuel : nat) (rbp : Z) (i : nat) : M (Expr * nat) :=
  match fuel with
  | O => λ _, OutOfFuel
  | S fuel' =>
      let* (t, i1) := next i in
      let* (seed, i2) := nud (parse fuel') t i1 in
      parse_while fuel' rbp seed i2
  end
with parse_while (fuel : nat) (rbp : Z) (left : Expr) (i : nat) : M (Expr * nat) :=
  match fuel with
  | O => λ _, OutOfFuel
  | S fuel' =>
      if hasMore i then
        let* power := bpof (peek i) in
        if (rbp <? power)%Z then
          let* (t, i1) := next i in
          let* (folded, i2) := led (parse fuel') t left i1 in
          parse_while fuel' rbp folded i2
        else ret (left, i)
      else ret (left, i)
  end.
End ensureExpr.

(** [Parser.ensureExpr]: every call of [parse] consumes a token, so a
    budget of one more than the chain length is never exhausted
    (lemma [ensureExpr_total]). *)
Definition ensureExpr (p : Parser) (ex : OpExpr + Expr) : M Expr :=
  match ex with
  | inr e => ret e
  | inl opex =>
      let* (e, _) := parse p opex (S (length (children opex))) 0%Z 0 in
      ret e
  end.

(** The rule handlers that assemble a chain. *)
Definition newOpExprList (p : Parser) (oplist : option (list string))
    (term : OpExpr + Expr) : M OpExpr :=
  let out := new_OpExpr in
  let out := match oplist with
             | None => out
             | Some ops => push (IOp <$> ops) out
             end in
  let* e := ensureExpr p term in
  ret (push [ITerm e] out).

Definition concatOpExprList (p : Parser) (lhsExpr : OpExpr) (oplist : list string)
    (rhsTerm : OpExpr + Expr) : M OpExpr :=
  let lhsExpr := push (IOp <$> oplist) lhsExpr in
  let* e := ensureExpr p rhsTerm in
  ret (push [ITerm e] lhsExpr).

(** ** Sample inputs used by the worked examples *)

(** A native function in the shape of stdlib.ts [Plus], on numeric
    arguments: [out = 0; for (v of args) out += v.value]. *)
Definition Plus : FuncType := λ args,
  Returns (JNum (foldl (λ out v,
                   match Value_value v with
                   | JNum n => (out + n)%Z
                   | _ => out
                   end) 0%Z args)).

(** A native function that fails on its missing first argument, like
    stdlib.ts [Minus] called with no argument ([args[0].value]). *)
Definition Minus : FuncType := λ args,
  match args with
  | [] => Throws (NativeError "TypeError: Cannot read properties of undefined")
  | a :: rest =>
      Returns (JNum (foldl (λ out v,
                       match Value_value v with
                       | JNum n => (out - n)%Z
                       | _ => out
                       end)
                     (match Value_value a with JNum n => n | _ => 0%Z end) rest))
  end.

(** The operator table of parser.spec.ts without its ["%"] entry. *)
Definition test_table : Parser :=
  setOP (Operator.new "|" 50 None None)
  (setOP (Operator.new "^" 40 None None)
  (setOP (Operator.new "/" 30 None None)
  (setOP (Operator.new "*" 30 None None)
  (setOP (Operator.new "+" 10 (Some Operator.LEFT) (Some 100%Z))
  (setOP (Operator.new "-" 10 (Some Operator.LEFT) (Some 100%Z)) new_Parser))))).

(** [x = 3; y = 5; z = x + y] on a fresh graph, as in core.spec.ts. *)
Definition define_xyz (fuel : nat) : M Expr :=
  let* n3 := lift (newNum 3) in
  let* _ := newVar fuel "x" (Some (EValue n3)) in
  let* n5 := lift (newNum 5) in
  let* _ := newVar fuel "y" (Some (EValue n5)) in
  let* rx := lift (newVarRef "x") in
  let* ry := lift (newVarRef "y") in
  let* sum := lift (newFunc "+" [rx; ry]) in
  let* _ := newVar fuel "z" (Some sum) in
  lift (newVarRef "z").

(** The chain the front end hands over for ["1 + 2 + 3"]:
    [Expr -> Term] then twice [Expr -> Expr OPList Term]. *)
Definition chain_1_plus_2_plus_3 (p : Parser) : M OpExpr :=
  let* n1 := lift (newNum 1) in
  let* c1 := newOpExprList p None (inr (EValue n1)) in
  let* n2 := lift (newNum 2) in
  let* c2 := concatOpExprList p c1 ["+"] (inr (EValue n2)) in
  let* n3 := lift (newNum 3) in
  concatOpExprList p c2 ["+"] (inr (EValue n3)).

(** The chain for ["- 3"]: [Expr -> OPList Term]. *)
Definition chain_minus_3 (p : Parser) : M OpExpr :=
  let* n3 := lift (newNum 3) in
  newOpExprList p (Some ["-"]) (inr (EValue n3)).

(** The state an operation leaves behind, whether it returned or threw. *)
Definition final_state {A} (r : Result A) : option DAG :=
  match r with
  | Ok _ d => Some d
  | Throw _ d => Some d
  | OutOfFuel => None
  end.

(** One call of the public interface of a graph. *)
Inductive step : DAG → DAG → Prop :=
  | step_alloc d : step d (set_counter (S (counter d)) d)
  | step_regFunc name f d : step d (regFunc name f d)
  | step_newUnits num den d : step d (snd (newUnits num den d))
  | step_getVar name ensure d : step d (snd (getVar name ensure d))
  | step_setValue fuel name e d d' :
      final_state (setValue fuel name e d) = Some d' → step d d'
  | step_latestValue fuel e d d' :
      final_state (latestValue fuel e d) = Some d' → step d d'
  | step_eval fuel e d d' :
      final_state (eval fuel e d) = Some d' → step d d'
  | step_ensureExpr p ex d d' :
      final_state (ensureExpr p ex d) = Some d' → step d d'.

(** The graphs a program can build: [new DAG()] followed by calls. *)
Definition reachable (d : DAG) : Prop := ∃ c, rtc step (new_DAG c) d.

(** What no operation changes: the generation and the five singletons;
    uuids are only ever drawn, never given back. *)
Record kept (d d' : DAG) : Prop := mkKept {
  kept_counter : counter d ≤ counter d';
  kept_lastModified : lastModified d' = lastModified d;
  kept_NULL : NULL d' = NULL d;
  kept_ZERO : ZERO d' = ZERO d;
  kept_ONE : ONE d' = ONE d;
  kept_TRUE : TRUE d' = TRUE d;
  kept_FALSE : FALSE d' = FALSE d
}.

(** What evaluation and resolution leave alone on top of that. *)
Record framed (d d' : DAG) : Prop := mkFramed {
  framed_kept : kept d d';
  framed_vars : vars d' = vars d;
  framed_funcs : funcs d' = funcs d;
  framed_unitsMap : unitsMap d' = unitsMap d;
  framed_unitsArena : unitsArena d' = unitsArena d
}.

(** ** Termination measure of the cycle check

    [explorable n vs e]: the traversal from [e] through the variable table
    [vs] bottoms out within [n] nested calls. *)
Fixpoint explorable (n : nat) (vs : gmap string Var) (e : Expr) : bool :=
  match n with
  | O => false
  | S n' =>
      match e with
      | EValue _ => true
      | VarRef _ x =>
          match vs !! x with
          | None => true
          | Some v => explorable n' vs (Var_value v)
          end
      | FuncCall _ _ args => forallb (explorable n' vs) args
      end
  end.

(** The variable table has no reference cycle: one bound serves every
    defining expression. *)
Definition acyclic (vs : gmap string Var) : Prop :=
  ∃ n, ∀ x v, vs !! x = Some v → explorable n vs (Var_value v) = true.

(** The search of [exprContainsVar], as a relation: a [VarRef] to the name
    is a hit, a [VarRef] to another bound variable continues in its
    defining expression, a [FuncCall] continues in its arguments. *)
Inductive reaches (vs : gmap string Var) (name : string) : Expr → Prop :=
  | reaches_hit u : reaches vs name (VarRef u name)
  | reaches_var u x v :
      x ≠ name → vs !! x = Some v → reaches vs name (Var_value v) →
      reaches vs name (VarRef u x)
  | reaches_arg u f args e :
      e ∈ args → reaches vs name e → reaches vs name (FuncCall u f args).

Fixpoint height (e : Expr) : nat :=
  match e with
  | FuncCall _ _ args => S (foldr Nat.max 0 (map height args))
  | _ => 0
  end.

(** A chain is well formed when [isOP] mirrors [children], which is what
    [push] maintains. *)
Definition aligned (ex : OpExpr) : Prop := isOP ex = is_string <$> children ex.

(** [advances i d r]: the computation [r], started at cursor [i] in the
    graph [d], finished (it did not exhaust the budget), moved the cursor
    forward only and touched nothing but the uuid counter. *)
Definition advances (i : nat) (d : DAG) (r : Result (Expr * nat)) : Prop :=
  match r with
  | Ok (_, i') d' => i ≤ i' ∧ framed d d'
  | Throw _ d' => framed d d'
  | OutOfFuel => False
  end.

(** The five literal singletons were drawn before anything else. *)
Definition singletons_allocated (d : DAG) : Prop :=
  Value_uuid (NULL d) < counter d ∧ Value_uuid (ZERO d) < counter d ∧
  Value_uuid (ONE d) < counter d ∧ Value_uuid (TRUE d) < counter d ∧
  Value_uuid (FALSE d) < counter d.

(** A decidable certificate of acyclicity for a given bound. *)
Definition acyclicb (n : nat) (vs : gmap string Var) : bool :=
  forallb (λ xv, explorable n vs (Var_value xv.2)) (map_to_list vs).

(** The graph in which a result was produced ([dflt] if none was). *)
Definition state_of {A} (r : Result A) (dflt : DAG) : DAG :=
  match r with
  | Ok _ d => d
  | Throw _ d => d
  | OutOfFuel => dflt
  end.

(** A fresh graph with ["+"] registered, as core.spec.ts sets it up. *)
Definition graph0 : DAG := regFunc "+" Plus (new_DAG 0).

(** The graph after [x = 3; y = 5; z = x + y], and the reference to [z]
    built last. *)
Definition xyz_graph : DAG := state_of (define_xyz 5 graph0) graph0.
Definition ref_z : Expr := VarRef 10 "z".
Definition three : Expr := EValue (mkValue 5 (JNum 3)).

(** Reading the trace length, for the worked examples. *)
Definition count_calls : M nat := λ d, Ok (length (calls d)) d.

(** [x = 3], an expression [x + 5] read once, [x = 10], the expression
    read again: the two values read and the number of native calls made
    by then. *)
Definition read_redefine_read (fuel : nat) : M (Value * nat * (Value * nat)) :=
  let* n3 := lift (newNum 3) in
  let* _ := setValue fuel "x" (Some (EValue n3)) in
  let* rx := lift (newVarRef "x") in
  let* n5 := lift (newNum 5) in
  let* e := lift (newFunc "+" [rx; EValue n5]) in
  let* v1 := latestValue fuel e in
  let* c1 := count_calls in
  let* n10 := lift (newNum 10) in
  let* _ := setValue fuel "x" (Some (EValue n10)) in
  let* v2 := latestValue fuel e in
  let* c2 := count_calls in
  ret (v1, c1, (v2, c2)).

(** The tokens after the first term of a chain [t0 s t1 s ... s tn]. *)
Definition infix_tail (s : string) (ts : list Expr) : list item :=
  flat_map (λ t, [IOp s; ITerm t]) ts.

(** Left-nested calls [name(... name(name(acc, t1), t2) ..., tn)], the
    calls carrying the uuids [u], [u + 1], ... in the order they are
    built. *)
Fixpoint fold_calls (name : string) (u : nat) (acc : Expr) (ts : list Expr) : Expr :=
  match ts with
  | [] => acc
  | t :: rest => fold_calls name (S u) (FuncCall u name [acc; t]) rest
  end.

(** The expression a resolution returned, if it returned. *)
Definition ensureExpr_value (r : Result Expr) : option Expr :=
  match r with
  | Ok e _ => Some e
  | _ => None
  end.

(** Reading the generation, for the worked examples. *)
Definition get_lastModified : M Z := λ d, Ok (lastModified d) d.

(** [x = 3] then [x = 4] on a graph: the generation before, between and
    after the two definitions. *)
Definition define_twice (fuel : nat) : M (Z * Z * Z) :=
  let* g0 := get_lastModified in
  let* n3 := lift (newNum 3) in
  let* _ := setValue fuel "x" (Some (EValue n3)) in
  let* g1 := get_lastModified in
  let* n4 := lift (newNum 4) in
  let* _ := setValue fuel "x" (Some (EValue n4)) in
  let* g2 := get_lastModified in
  ret (g0, g1, g2).

(** [outer(inner())] built and evaluated. *)
Definition eval_nested (outer inner : string) (fuel : nat) : M Value :=
  let* i := lift (newFunc inner []) in
  let* o := lift (newFunc outer [i]) in
  eval fuel o.

(** The literals 3 and 5 built on [graph0], and the graph after the call
    [+(3, 5)] has been built on top. *)
Definition args_3_5 : list Expr :=
  [EValue (mkValue 5 (JNum 3)); EValue (mkValue 6 (JNum 5))].
Definition graph_3_5 : DAG :=
  snd (newFunc "+" args_3_5 (snd (newNum 5 (snd (newNum 3 graph0))))).

(** The graph and the chain after the front end has read ["1 + 2 + 3"]
    on a fresh graph. *)
Definition graph_123 : DAG :=
  state_of (chain_1_plus_2_plus_3 test_table (new_DAG 0)) (new_DAG 0).
Definition lit (uuid : nat) (n : Z) : Expr := EValue (mkValue uuid (JNum n)).

(** ** Further notions used by the properties of the whole interface *)


(** Every entry of the variable table sits under its own name. *)
Definition vars_named (vs : gmap string Var) : Prop :=
  ∀ x v, vs !! x = Some v → Var_name v = x.

(** Every key of the units registry points at an instance of the arena
    whose own names produce that key. *)
Definition units_wf (d : DAG) : Prop :=
  ∀ key u, unitsMap d !! key = Some u →
    ∃ un, unitsArena d !! u = Some un ∧
          units_key (Units_num un) (Units_den un) = key.

(** Every cache entry carries a stamp that is not behind the generation. *)
Definition memo_current (d : DAG) : Prop :=
  ∀ u g v, memo d !! u = Some (g, v) → (lastModified d ≤ g)%Z.

(** Cache entries with such a stamp, and the generation, carried over
    from [d] to [d']. *)
Definition memo_kept (d d' : DAG) : Prop :=
  lastModified d' = lastModified d ∧
  ∀ u g v, memo d !! u = Some (g, v) → (lastModified d ≤ g)%Z →
           memo d' !! u = Some (g, v).

(** Right-nested calls [name(t0, name(t1, ... name(t(n-1), tn)))]: the
    innermost call is built first and carries the uuid [u]. *)
Fixpoint right_calls (name : string) (u : nat) (t0 : Expr) (ts : list Expr) : Expr :=
  match ts with
  | [] => t0
  | t :: rest => FuncCall (u + length rest) name [t0; right_calls name u t rest]
  end.

(** [x = 3] and the expression [x + 5], built on [graph0]; the graph
    after the expression has been read once; the graph after [x] has then
    been redefined to 10. *)
Definition build_sum : M Expr :=
  let* n3 := lift (newNum 3) in
  let* _ := setValue 1 "x" (Some (EValue n3)) in
  let* rx := lift (newVarRef "x") in
  let* n5 := lift (newNum 5) in
  lift (newFunc "+" [rx; EValue n5]).
Definition sum_expr : Expr := FuncCall 8 "+" [VarRef 6 "x"; lit 7 5].
Definition sum_graph : DAG := state_of (build_sum graph0) graph0.
Definition sum_read : DAG := state_of (latestValue 3 sum_expr sum_graph) sum_graph.
Definition redefine_x : M Var :=
  let* n10 := lift (newNum 10) in
  setValue 1 "x" (Some (EValue n10)).
Definition sum_redefined : DAG := state_of (redefine_x sum_read) sum_read.

(** The children of a call read one after the other from the left, each
    in the graph the one before it left behind: either all of them
    return, which gives the list of their values, ... *)
Inductive children_return (fuel : nat) : list Expr → DAG → list Value → DAG → Prop :=
  | children_return_nil d : children_return fuel [] d [] d
  | children_return_cons a rest d v d1 vs d2 :
      latestValue fuel a d = Ok v d1 →
      children_return fuel rest d1 vs d2 →
      children_return fuel (a :: rest) d (v :: vs) d2.

(** ... or one of them throws after those on its left have returned,
    and those on its right are not read. *)
Inductive children_throw (fuel : nat) : list Expr → DAG → Error → DAG → Prop :=
  | children_throw_here a rest d err d1 :
      latestValue fuel a d = Throw err d1 →
      children_throw fuel (a :: rest) d err d1
  | children_throw_later a rest d v d1 err d2 :
      latestValue fuel a d = Ok v d1 →
      children_throw fuel rest d1 err d2 →
      children_throw fuel (a :: rest) d err d2.

(** [outer(first(), second())] built and evaluated. *)
Definition eval_pair (outer first second : string) (fuel : nat) : M Value :=
  let* a := lift (newFunc first []) in
  let* b := lift (newFunc second []) in
  let* o := lift (newFunc outer [a; b]) in
  eval fuel o.

(** [+(3, 5)] built and evaluated: the value returned and the native
    calls made. *)
Definition eval_3_plus_5 (fuel : nat) : M (Value * list (string * list Value)) :=
  let* n3 := lift (newNum 3) in
  let* n5 := lift (newNum 5) in
  let* o := lift (newFunc "+" [EValue n3; EValue n5]) in
  let* v := eval fuel o in
  λ d, Ok (v, calls d) d.

(** * Properties *)

(** ** Framing *)

Lemma kept_refl d : kept d d.
Proof. by split. Qed.

Lemma kept_trans d1 d2 d3 : kept d1 d2 → kept d2 d3 → kept d1 d3.
Proof. intros [] []; split; try congruence. lia. Qed.

Lemma framed_refl d : framed d d.
Proof. split; auto using kept_refl. Qed.

Lemma framed_trans d1 d2 d3 : framed d1 d2 → framed d2 d3 → framed d1 d3.
Proof. intros [] []; split; eauto using kept_trans; congruence. Qed.

Lemma framed_alloc d : framed d (set_counter (S (counter d)) d).
Proof. repeat split; simpl; lia. Qed.

Lemma framed_set_memo mm d : framed d (set_memo mm d).
Proof. repeat split; simpl; lia. Qed.

Lemma framed_set_calls cs d : framed d (set_calls cs d).
Proof. repeat split; simpl; lia. Qed.


Lemma getVar_lookup name d : getVar name false d = (vars d !! name, d).
Proof. unfold getVar. by destruct (vars d !! name). Qed.

Lemma getVar_ensure name d :
  getVar name true d =
    match vars d !! name with
    | Some v => (Some v, d)
    | None =>
        (Some (mkVar name (EValue (NULL d)) ""),
         set_vars (<[name := mkVar name (EValue (NULL d)) ""]> (vars d)) d)
    end.
Proof. unfold getVar. by destruct (vars d !! name). Qed.

Lemma getVar_kept name ensure d : kept d (snd (getVar name ensure d)).
Proof.
  unfold getVar. destruct (vars d !! name); [apply kept_refl|].
  destruct ensure; simpl; [by split | apply kept_refl].
Qed.

Lemma invoke_framed name f values d d' :
  final_state (invoke name f values d) = Some d' → framed d d'.
Proof.
  unfold invoke, new_Value. destruct (f values); intros [= <-].
  - eapply framed_trans; [apply framed_set_calls|].
    apply (framed_alloc (set_calls _ d)).
  - apply framed_set_calls.
Qed.

Lemma final_bind {A B} (m : M A) (k : A → M B) d d' :
  final_state (bind m k d) = Some d' →
  (∃ err, m d = Throw err d') ∨
  (∃ a d1, m d = Ok a d1 ∧ final_state (k a d1) = Some d').
Proof.
  unfold bind. destruct (m d) as [a d1|err d1|]; simpl; [|intros [= <-]|done]; eauto.
Qed.

Section map_latest.
Variable lv : Expr → M Value.
Hypothesis lv_framed : ∀ e d d', final_state (lv e d) = Some d' → framed d d'.

Lemma map_latest_framed args d d' :
  final_state (map_latest lv args d) = Some d' → framed d d'.
Proof using lv_framed.
  revert d. induction args as [|a rest IH]; intros d; simpl.
  - intros [= <-]. apply framed_refl.
  - intros [[err Ha]|(v & d1 & Ha & H)]%final_bind.
    { apply (lv_framed a). by rewrite Ha. }
    assert (framed d d1) as F1 by (apply (lv_framed a); by rewrite Ha).
    apply final_bind in H as [[err Hr]|(vs & d2 & Hr & H)].
    + eapply framed_trans; [done|]. apply IH. by rewrite Hr.
    + injection H as <-. eapply framed_trans; [done|]. apply IH. by rewrite Hr.
Qed.
End map_latest.

Lemma eval_with_framed lv e d d' :
  (∀ e d d', final_state (lv e d) = Some d' → framed d d') →
  final_state (eval_with lv e d) = Some d' → framed d d'.
Proof.
  intros Hlv. destruct e as [v|u name|u f args]; simpl.
  - intros [= <-]. apply framed_refl.
  - unfold VarRef_eval. rewrite getVar_lookup.
    destruct (vars d !! name); [apply Hlv | intros [= <-]; apply framed_refl].
  - unfold FuncCall_eval, bind.
    destruct (map_latest lv args d) as [vs d1| err d1|] eqn:Hm; simpl; [| |done].
    + assert (framed d d1) as F1 by (eapply map_latest_framed; [done | by rewrite Hm]).
      unfold getFunc. destruct (funcs d1 !! f).
      * intros H. eapply framed_trans; [done|]. by eapply invoke_framed.
      * by intros [= <-].
    + intros [= <-]. eapply map_latest_framed; [done | by rewrite Hm].
Qed.

Lemma latestValue_with_framed lv e d d' :
  (∀ e d d', final_state (lv e d) = Some d' → framed d d') →
  final_state (latestValue_with lv e d) = Some d' → framed d d'.
Proof.
  intros Hlv.
  assert (∀ e, final_state
    (if (lastEvaluated e d <? lastModified d)%Z then
       (let* v := eval_with lv e in
        λ d', Ok v (set_memo (<[Expr_uuid e := (lastModified d', v)]> (memo d')) d')) d
     else Ok (_latestValue e d) d) = Some d' → framed d d') as Hgen.
  { intros e0. destruct (_ <? _)%Z; [|intros [= <-]; apply framed_refl].
    unfold bind. destruct (eval_with lv e0 d) as [v d1| err d1|] eqn:He; simpl; [| |done].
    - intros [= <-]. eapply framed_trans; [|apply framed_set_memo].
      eapply eval_with_framed; [done | by rewrite He].
    - intros [= <-]. eapply eval_with_framed; [done | by rewrite He]. }
  destruct e; simpl; [intros [= <-]; apply framed_refl | apply Hgen..].
Qed.

Lemma latestValue_framed fuel e d d' :
  final_state (latestValue fuel e d) = Some d' → framed d d'.
Proof.
  revert e d d'. induction fuel as [|fuel IH]; intros e d d'; simpl; [done|].
  by apply latestValue_with_framed.
Qed.

Lemma eval_framed fuel e d d' :
  final_state (eval fuel e d) = Some d' → framed d d'.
Proof. apply eval_with_framed, latestValue_framed. Qed.

(** ** The cycle check *)

(** The search never looks at anything but the variable table. *)
Lemma exprContainsVar_vars fuel d d' e name :
  vars d = vars d' → exprContainsVar fuel d e name = exprContainsVar fuel d' e name.
Proof.
  intros Hv. revert e. induction fuel as [|fuel IH]; intros e; simpl; [done|].
  destruct e as [[v|u x|u f args]|]; try done.
  - destruct (String.eqb x name); [done|]. rewrite !getVar_lookup, Hv. simpl.
    by destruct (vars d' !! x).
  - induction args as [|a rest IHa]; simpl; [done|]. by rewrite IH, IHa.
Qed.

Lemma any_arg_mono (c1 c2 : Expr → option bool) args b :
  (∀ e b, c1 e = Some b → c2 e = Some b) →
  any_arg c1 args = Some b → any_arg c2 args = Some b.
Proof.
  intros Hc. induction args as [|a rest IH]; simpl; [done|].
  destruct (c1 a) as [[]|] eqn:Ha; [| |done]; rewrite (Hc _ _ Ha); auto.
Qed.

(** A larger budget never changes an answer. *)
Lemma exprContainsVar_mono fuel fuel' d e name b :
  fuel ≤ fuel' →
  exprContainsVar fuel d e name = Some b → exprContainsVar fuel' d e name = Some b.
Proof.
  revert fuel' e b. induction fuel as [|fuel IH]; intros fuel' e b Hle; simpl; [done|].
  destruct fuel' as [|fuel']; [lia|]. simpl.
  destruct e as [[v|u x|u f args]|]; try done.
  - destruct (String.eqb x name); [done|].
    destruct (fst (getVar x false d)); [|done]. apply IH. lia.
  - apply any_arg_mono. intros e b'. apply IH. lia.
Qed.

Lemma any_arg_true check args :
  any_arg check args = Some true → ∃ e, e ∈ args ∧ check e = Some true.
Proof.
  induction args as [|a rest IH]; simpl; [done|].
  destruct (check a) as [[]|] eqn:Ha; [| |done].
  - intros _. exists a. split; [left | done].
  - intros (e & ? & ?)%IH. exists e. split; [by right | done].
Qed.

Lemma any_arg_false check args :
  any_arg check args = Some false → ∀ e, e ∈ args → check e = Some false.
Proof.
  induction args as [|a rest IH]; simpl; [by intros _ e ?%elem_of_nil|].
  destruct (check a) as [[]|] eqn:Ha; [done| |done].
  intros H e [->|?]%elem_of_cons; auto.
Qed.

(** The function answers [true] only when the search reaches the name. *)
Lemma exprContainsVar_true fuel d e name :
  exprContainsVar fuel d (Some e) name = Some true → reaches (vars d) name e.
Proof.
  revert e. induction fuel as [|fuel IH]; intros e; simpl; [done|].
  destruct e as [v|u x|u f args]; [done| |].
  - destruct (String.eqb_spec x name) as [->|Hne]; [intros _; constructor|].
    rewrite getVar_lookup. simpl. destruct (vars d !! x) as [v|] eqn:Hx; [|done].
    intros H. eapply reaches_var; eauto.
  - intros (e & He & H)%any_arg_true. eapply reaches_arg; eauto.
Qed.

(** It answers [false] only when the search does not reach it. *)
Lemma exprContainsVar_false fuel d e name :
  exprContainsVar fuel d (Some e) name = Some false → ¬ reaches (vars d) name e.
Proof.
  revert e. induction fuel as [|fuel IH]; intros e; simpl; [done|].
  destruct e as [v|u x|u f args].
  - intros _ H. inversion H.
  - destruct (String.eqb_spec x name) as [->|Hne]; [done|].
    rewrite getVar_lookup. simpl. intros H Hr. inversion Hr; subst; [done|].
    match goal with Hx : vars d !! x = Some _ |- _ => rewrite Hx in H end.
    by eapply IH.
  - intros H Hr. inversion Hr; subst.
    eapply IH; [|done]. by eapply (any_arg_false _ _ H).
Qed.

(** ** Termination of the cycle check on acyclic tables *)

Lemma forallb_mono {A} (f g : A → bool) l :
  (∀ x, f x = true → g x = true) → forallb f l = true → forallb g l = true.
Proof.
  intros Hfg. induction l as [|a l IH]; simpl; [done|].
  intros [??]%andb_prop. rewrite Hfg by done. auto.
Qed.

Lemma explorable_mono n m vs e :
  n ≤ m → explorable n vs e = true → explorable m vs e = true.
Proof.
  revert m e. induction n as [|n IH]; intros m e Hle; simpl; [done|].
  destruct m as [|m]; [lia|]. simpl.
  destruct e as [v|u x|u f args]; [done| |].
  - destruct (vs !! x); [|done]. apply IH. lia.
  - apply forallb_mono. intros e. apply IH. lia.
Qed.

Lemma Expr_ind' (P : Expr → Prop) :
  (∀ v, P (EValue v)) →
  (∀ u name, P (VarRef u name)) →
  (∀ u f args, Forall P args → P (FuncCall u f args)) →
  ∀ e, P e.
Proof.
  intros HV HR HF. fix IH 1. intros [v|u name|u f args]; [apply HV | apply HR |].
  apply HF. induction args as [|a rest IHr]; constructor; [apply IH | apply IHr].
Qed.

(** With a bound [n] for every defining expression, any expression is
    explored within [n] plus its own height and one. *)
Lemma explorable_any n vs e :
  (∀ x v, vs !! x = Some v → explorable n vs (Var_value v) = true) →
  explorable (n + S (height e)) vs e = true.
Proof.
  intros Hn. induction e as [v|u x|u f args IH] using Expr_ind'.
  - by rewrite Nat.add_comm.
  - rewrite Nat.add_comm. simpl. destruct (vs !! x) as [v|] eqn:Hx; [|done]. eauto.
  - replace (n + S (height (FuncCall u f args)))
      with (S (n + S (foldr Nat.max 0 (map height args)))) by (simpl; lia).
    simpl. induction IH as [|a rest Ha _ IHr]; simpl; [done|].
    apply andb_true_intro. split.
    + eapply explorable_mono; [|exact Ha]. lia.
    + eapply forallb_mono; [|exact IHr]. intros e. apply explorable_mono. lia.
Qed.

(** An explorable expression gets an answer from the cycle check. *)
Lemma exprContainsVar_terminates n d e name :
  explorable n (vars d) e = true → is_Some (exprContainsVar n d (Some e) name).
Proof.
  revert e. induction n as [|n IH]; intros e; simpl; [done|].
  destruct e as [v|u x|u f args]; [by eexists| |].
  - intros H. destruct (String.eqb x name); [by eexists|].
    rewrite getVar_lookup. simpl. destruct (vars d !! x); [by apply IH | by eexists].
  - induction args as [|a rest IHa]; simpl; [by eexists|].
    intros [Ha Hr]%andb_prop. destruct (IH _ Ha) as [[] ->]; [by eexists | auto].
Qed.

(** Rebinding [name] does not disturb a traversal that never meets it. *)
Lemma explorable_insert_unreached k vs name v e :
  ¬ reaches vs name e →
  explorable k vs e = true → explorable k (<[name := v]> vs) e = true.
Proof.
  revert e. induction k as [|k IH]; intros e Hnr; simpl; [done|].
  destruct e as [w|u x|u f args]; [done| |].
  - destruct (decide (x = name)) as [->|Hne]; [destruct Hnr; constructor|].
    rewrite lookup_insert_ne by done.
    destruct (vs !! x) as [w|] eqn:Hx; [|done].
    apply IH. intros Hr. apply Hnr. by eapply reaches_var.
  - intros H. apply forallb_forall. intros e He.
    apply IH; [|by eapply forallb_forall in H].
    intros Hr. apply Hnr. eapply reaches_arg; [|done]. by apply list_elem_of_In.
Qed.

(** A traversal that does meet [name] continues in the new definition. *)
Lemma explorable_insert k ke vs name v e :
  explorable ke (<[name := v]> vs) (Var_value v) = true →
  explorable k vs e = true →
  explorable (k + ke) (<[name := v]> vs) e = true.
Proof.
  intros Hv. revert e. induction k as [|k IH]; intros e; simpl; [done|].
  destruct e as [w|u x|u f args]; [done| |].
  - destruct (decide (x = name)) as [->|Hne].
    + rewrite lookup_insert_eq. intros _. eapply explorable_mono; [|done]. lia.
    + rewrite lookup_insert_ne by done. destruct (vs !! x); [apply IH | done].
  - apply forallb_mono, IH.
Qed.

(** Acyclicity survives a rebinding whose new expression does not reach
    the variable being bound. *)
Lemma acyclic_insert vs name v :
  acyclic vs → ¬ reaches vs name (Var_value v) → acyclic (<[name := v]> vs).
Proof.
  intros [n Hn] Hnr.
  set (ke := n + S (height (Var_value v))).
  assert (explorable ke (<[name := v]> vs) (Var_value v) = true) as Hv.
  { apply explorable_insert_unreached; [done|]. by apply explorable_any. }
  exists (n + ke). intros x w. destruct (decide (x = name)) as [->|Hne].
  - rewrite lookup_insert_eq. intros [= <-]. eapply explorable_mono; [|done]. lia.
  - rewrite lookup_insert_ne by done. intros Hx. apply explorable_insert; eauto.
Qed.

Lemma acyclic_empty : acyclic ∅.
Proof. exists 0. intros x v. by rewrite lookup_empty. Qed.

Lemma reaches_insert vs name v e :
  reaches vs name e ↔ reaches (<[name := v]> vs) name e.
Proof.
  split; induction 1 as [u|u x w Hne Hx _ IH|u f args e He _ IH].
  - constructor.
  - eapply reaches_var; [done| |done]. by rewrite lookup_insert_ne.
  - by eapply reaches_arg.
  - constructor.
  - rewrite lookup_insert_ne in Hx by done. by eapply reaches_var.
  - by eapply reaches_arg.
Qed.

(** ** [setValue] *)

Lemma getVar_ensure_Some name d : is_Some (fst (getVar name true d)).
Proof. rewrite getVar_ensure. destruct (vars d !! name); by eexists. Qed.

Lemma getVar_ensure_bound name d :
  vars (snd (getVar name true d)) !! name = fst (getVar name true d).
Proof.
  rewrite getVar_ensure. destruct (vars d !! name) eqn:Hx; simpl; [done|].
  by rewrite lookup_insert_eq.
Qed.

(** Fetch-or-create leaves every existing binding as it was. *)
Lemma getVar_ensure_old name d x v :
  vars d !! x = Some v → vars (snd (getVar name true d)) !! x = Some v.
Proof.
  rewrite getVar_ensure. destruct (vars d !! name) eqn:Hn; simpl; [done|].
  intros Hx. rewrite lookup_insert_ne; [done|]. congruence.
Qed.

Lemma getVar_ensure_acyclic name d :
  acyclic (vars d) → acyclic (vars (snd (getVar name true d))).
Proof.
  rewrite getVar_ensure. destruct (vars d !! name); simpl; [done|].
  intros H. apply acyclic_insert; [done|]. simpl. intros Hr. inversion Hr.
Qed.

Lemma getVar_ensure_reaches name d e :
  reaches (vars d) name e ↔ reaches (vars (snd (getVar name true d))) name e.
Proof.
  rewrite getVar_ensure. destruct (vars d !! name); simpl; [done|].
  apply reaches_insert.
Qed.

(** The three ways [setValue] can go, by the answer of the cycle check. *)
Lemma setValue_unfold fuel name newValue d :
  let e := default (EValue (NULL d)) newValue in
  let d1 := snd (getVar name true d) in
  ∃ v, fst (getVar name true d) = Some v ∧
    setValue fuel name newValue d =
      match exprContainsVar fuel d1 (Some e) name with
      | None => OutOfFuel
      | Some true => Throw (CircularReferenceError (circular_msg name)) d1
      | Some false =>
          Ok (mkVar (Var_name v) e (Var_desc v))
             (set_vars (<[name := mkVar (Var_name v) e (Var_desc v)]> (vars d1)) d1)
      end.
Proof.
  intros e d1. destruct (getVar_ensure_Some name d) as [v Hv]. exists v.
  split; [done|]. unfold setValue. subst d1.
  destruct (getVar name true d) as [ov d1]. simpl in *. by subst ov.
Qed.

Lemma setValue_kept fuel name newValue d d' :
  final_state (setValue fuel name newValue d) = Some d' → kept d d'.
Proof.
  destruct (setValue_unfold fuel name newValue d) as (v & _ & ->).
  pose proof (getVar_kept name true d) as K.
  destruct (exprContainsVar _ _ _ _) as [[]|]; simpl; [| |done]; intros [= <-]; [done|].
  eapply kept_trans; [done|]. by split.
Qed.

(** Variable tables stay acyclic under [setValue], whatever its outcome. *)
Lemma setValue_acyclic fuel name newValue d d' :
  acyclic (vars d) →
  final_state (setValue fuel name newValue d) = Some d' → acyclic (vars d').
Proof.
  intros Hac. destruct (setValue_unfold fuel name newValue d) as (v & _ & ->).
  apply (getVar_ensure_acyclic name) in Hac.
  destruct (exprContainsVar _ _ _ _) as [[]|] eqn:Hc; simpl; [| |done]; intros [= <-]; [done|].
  simpl. apply acyclic_insert; [done|]. simpl. by eapply exprContainsVar_false.
Qed.

(** On an acyclic table the cycle check always answers, so [setValue]
    always returns or throws once the budget is large enough. *)
Lemma setValue_total name newValue d :
  acyclic (vars d) →
  ∃ fuel0, ∀ fuel, fuel0 ≤ fuel → is_Some (final_state (setValue fuel name newValue d)).
Proof.
  intros [n Hn]%(getVar_ensure_acyclic name).
  set (e := default (EValue (NULL d)) newValue).
  exists (n + S (height e)). intros fuel Hle.
  destruct (setValue_unfold fuel name newValue d) as (v & _ & ->). fold e.
  destruct (exprContainsVar_terminates (n + S (height e))
              (snd (getVar name true d)) e name) as [b Hb].
  { by apply explorable_any. }
  rewrite (exprContainsVar_mono _ fuel _ _ _ _ Hle Hb). destruct b; by eexists.
Qed.

(** ** The resolver: termination and framing *)

Lemma advances_throw i d err : advances i d (Throw err d).
Proof. apply framed_refl. Qed.

Lemma advances_bind i d (m : M (Expr * nat)) (k : Expr * nat → M (Expr * nat)) j :
  advances j d (m d) → i ≤ j →
  (∀ e i1 d1, j ≤ i1 → framed d d1 → advances i1 d1 (k (e, i1) d1)) →
  advances i d (bind m k d).
Proof.
  unfold bind. destruct (m d) as [[e i1] d1|err d1|]; simpl; [|done..].
  intros [Hj F] Hi Hk. specialize (Hk e i1 d1 Hj F).
  destruct (k (e, i1) d1) as [[e2 i2] d2|err d2|]; simpl in *; [| |done].
  - destruct Hk. split; [lia | by eapply framed_trans].
  - by eapply framed_trans.
Qed.

Section resolver_facts.
Variable p : Parser.
Variable opex : OpExpr.

Lemma getOp_cases x d :
  (∃ err, getOp p x d = Throw err d) ∨
  (∃ s o, x = Some (IOp s) ∧ opinfos p !! s = Some o ∧ getOp p x d = Ok o d).
Proof.
  destruct x as [[s|e]|]; simpl; [|left; by eexists..].
  destruct (opinfos p !! s) as [o|] eqn:Ho; [right | left]; by eauto.
Qed.

Lemma newFunc_advances name args i d :
  advances i d ((let* e := lift (newFunc name args) in ret (e, i)) d).
Proof. split; [done | apply framed_alloc]. Qed.

Lemma nud_advances prs index i d :
  (∀ rbp, advances i d (prs rbp i d)) → advances i d (nud p opex prs index i d).
Proof.
  intros Hprs. unfold nud. destruct (isOP_at opex index).
  - unfold bind at 1.
    destruct (getOp_cases (children opex !! index) d) as [[err ->]|(s & o & _ & _ & ->)];
      [apply advances_throw|].
    destruct (_ <? _)%Z; [apply advances_throw|].
    eapply advances_bind; [apply Hprs | done |].
    intros e i1 d1 Hi F. pose proof (framed_alloc d1).
    simpl. unfold bind, lift, newFunc, ret. simpl. split; [done|].
    apply framed_alloc.
  - destruct (children opex !! index) as [[s|e]|]; try apply advances_throw.
    split; [done | apply framed_refl].
Qed.

Lemma led_advances prs index left i d :
  (∀ rbp, advances i d (prs rbp i d)) → advances i d (led p opex prs index left i d).
Proof.
  intros Hprs. unfold led. destruct (isOP_at opex index); [|apply advances_throw].
  unfold bind at 1.
  destruct (getOp_cases (children opex !! index) d) as [[err ->]|(s & o & _ & _ & ->)];
    [apply advances_throw|].
  destruct (_ =? _)%Z; [|destruct (_ =? _)%Z; [|apply advances_throw]].
  all: eapply advances_bind; [apply Hprs | done |];
    intros e i1 d1 Hi F; split; [done | apply framed_alloc].
Qed.

Lemma bpof_cases index d :
  (∃ err, bpof p opex index d = Throw err d) ∨ (∃ power, bpof p opex index d = Ok power d).
Proof.
  unfold bpof. destruct (isOP_at opex index); [|left; by eexists].
  unfold bind.
  destruct (getOp_cases (children opex !! index) d) as [[err ->]|(s & o & _ & _ & ->)];
    [left | right]; by eexists.
Qed.

(** Both loops finish within a budget above the number of tokens left. *)
Lemma parse_advances fuel :
  (∀ rbp i d, length (children opex) - i < fuel →
     advances (S i) d (parse p opex fuel rbp i d) ∨
     ∃ err, parse p opex fuel rbp i d = Throw err d) ∧
  (∀ rbp left i d, length (children opex) - i < fuel →
     advances i d (parse_while p opex fuel rbp left i d)).
Proof.
  induction fuel as [|fuel [IHp IHw]]; [split; intros; lia|].
  assert (∀ i d, length (children opex) - i < fuel →
            ∀ rbp, advances i d (parse p opex fuel rbp i d)) as IHp'.
  { intros i d Hlt rbp. destruct (IHp rbp i d Hlt) as [H|[err ->]]; [|apply advances_throw].
    destruct (parse _ _ _ _ _ _) as [[e i'] d'|err d'|]; simpl in *; [|done..].
    destruct H. split; [lia | done]. }
  split.
  - intros rbp i d Hlt. simpl. unfold next, throw. unfold bind at 1.
    destruct (hasMore opex i) eqn:Hm; [|right; by eexists].
    left. apply Nat.ltb_lt in Hm. simpl.
    eapply advances_bind; [apply nud_advances, IHp'; lia | done |].
    intros e i1 d1 Hi F. apply IHw. lia.
  - intros rbp left i d Hlt. simpl.
    destruct (hasMore opex i) eqn:Hm; [|split; [done | apply framed_refl]].
    apply Nat.ltb_lt in Hm. unfold bind at 1, peek.
    destruct (bpof_cases i d) as [[err ->]|[power ->]]; [apply advances_throw|].
    destruct (_ <? _)%Z; [|split; [done | apply framed_refl]].
    unfold next. rewrite (proj2 (Nat.ltb_lt _ _) Hm : hasMore opex i = true).
    unfold bind at 1. simpl.
    eapply (advances_bind _ _ _ _ (S i)); [apply led_advances, IHp'; lia | lia |].
    intros e i1 d1 Hi F. apply IHw. lia.
Qed.
End resolver_facts.

(** [ensureExpr] never exhausts its budget: it returns or throws, and
    the graph it leaves differs from the one it found by drawn uuids only. *)
Lemma ensureExpr_total p ex d :
  ∃ d', final_state (ensureExpr p ex d) = Some d' ∧ framed d d'.
Proof.
  destruct ex as [opex|e]; [|eexists; split; [done | apply framed_refl]].
  destruct (parse_advances p opex (S (length (children opex)))) as [Hp _].
  specialize (Hp 0%Z 0 d). unfold ensureExpr, bind.
  destruct Hp as [H|[err ->]]; [lia| |eexists; split; [done | apply framed_refl]].
  destruct (parse _ _ _ _ _ _) as [[e i'] d'|err d'|]; [| |done].
  - destruct H. by eexists.
  - by eexists.
Qed.

Lemma ensureExpr_framed p ex d d' :
  final_state (ensureExpr p ex d) = Some d' → framed d d'.
Proof. destruct (ensureExpr_total p ex d) as (d2 & -> & F). by intros [= <-]. Qed.

(** ** Invariants of reachable graphs *)

Lemma newUnits_vars num den d : vars (snd (newUnits num den d)) = vars d.
Proof. unfold newUnits. by destruct (unitsMap d !! _). Qed.

Lemma newUnits_kept num den d : kept d (snd (newUnits num den d)).
Proof. unfold newUnits. destruct (unitsMap d !! _); simpl; by split. Qed.

Lemma step_kept d d' : step d d' → kept d d'.
Proof.
  destruct 1.
  - apply framed_alloc.
  - by split.
  - apply newUnits_kept.
  - apply getVar_kept.
  - by eapply setValue_kept.
  - by eapply framed_kept, latestValue_framed.
  - by eapply framed_kept, eval_framed.
  - by eapply framed_kept, ensureExpr_framed.
Qed.

Lemma step_acyclic d d' : step d d' → acyclic (vars d) → acyclic (vars d').
Proof.
  destruct 1 as [d|name f d|num den d|name ensure d|fuel name e d d' H
                |fuel e d d' H|fuel e d d' H|p ex d d' H]; try done.
  - by rewrite newUnits_vars.
  - destruct ensure; [apply getVar_ensure_acyclic|]. by rewrite getVar_lookup.
  - intros ?. by eapply setValue_acyclic.
  - by rewrite (framed_vars _ _ (latestValue_framed _ _ _ _ H)).
  - by rewrite (framed_vars _ _ (eval_framed _ _ _ _ H)).
  - by rewrite (framed_vars _ _ (ensureExpr_framed _ _ _ _ H)).
Qed.

Lemma rtc_step_kept d d' : rtc step d d' → kept d d'.
Proof.
  induction 1 as [|d1 d2 d3 H _ IH]; [apply kept_refl|].
  eapply kept_trans; [by apply step_kept | done].
Qed.

Lemma kept_singletons_allocated d d' :
  kept d d' → singletons_allocated d → singletons_allocated d'.
Proof.
  unfold singletons_allocated. intros [Hc _ -> -> -> -> ->] (?&?&?&?&?).
  repeat split; lia.
Qed.

Lemma reachable_singletons_allocated d : reachable d → singletons_allocated d.
Proof.
  intros [c H%rtc_step_kept]. eapply kept_singletons_allocated; [done|].
  unfold singletons_allocated. simpl. lia.
Qed.

(** Every graph a program can build has an acyclic variable table. *)
Lemma reachable_acyclic d : reachable d → acyclic (vars d).
Proof.
  intros [c H]. revert d H. apply rtc_ind_r.
  - apply acyclic_empty.
  - intros d1 d2 _ Hs IH. by eapply step_acyclic.
Qed.

(** No operation writes [lastModified]: it is 0 in every such graph. *)
Lemma reachable_lastModified d : reachable d → lastModified d = 0%Z.
Proof. intros [c H%rtc_step_kept]. by destruct H. Qed.

Lemma acyclicb_sound n vs : acyclicb n vs = true → acyclic vs.
Proof.
  intros H. exists n. intros x v Hx.
  apply (proj1 (forallb_forall _ _) H (x, v)).
  apply list_elem_of_In. by apply elem_of_map_to_list.
Qed.

(** ** Claims about [setValue] *)

Lemma setValue_throw_mono fuel fuel' name newValue d err d' :
  fuel ≤ fuel' →
  setValue fuel name newValue d = Throw err d' →
  setValue fuel' name newValue d = Throw err d'.
Proof.
  intros Hle.
  destruct (setValue_unfold fuel name newValue d) as (v & Hv & ->).
  destruct (setValue_unfold fuel' name newValue d) as (v' & Hv' & ->).
  rewrite Hv in Hv'. injection Hv' as <-.
  destruct (exprContainsVar fuel _ _ _) as [b|] eqn:Hb; [|done].
  by rewrite (exprContainsVar_mono _ _ _ _ _ _ Hle Hb).
Qed.

(** C1.  A definition whose expression reaches the variable being
    defined (through argument lists and through the current definitions
    of the other variables it mentions) is rejected with the
    circular-reference error, and every binding of the table, the one of
    that variable included, is what it was.  Worked case: after [x = 3],
    [y = 5], [z = x + y], redefining [x] as a reference to [z] throws
    "Circular reference for variable: x" and [x] is still bound to 3. *)
Theorem C1_setValue_rejects_cycle :
  (∀ d name newExpr,
     acyclic (vars d) →
     reaches (vars d) name (default (EValue (NULL d)) newExpr) →
     ∃ fuel0, ∀ fuel, fuel0 ≤ fuel →
       ∃ d', setValue fuel name newExpr d
               = Throw (CircularReferenceError (circular_msg name)) d' ∧
             (∀ x v, vars d !! x = Some v → vars d' !! x = Some v) ∧
             vars d' !! name = fst (getVar name true d) ∧
             kept d d') ∧
  (define_xyz 5 graph0 = Ok ref_z xyz_graph ∧
   Var_value <$> vars xyz_graph !! "x" = Some three ∧
   ∀ fuel, 3 ≤ fuel →
     ∃ d', setValue fuel "x" (Some ref_z) xyz_graph
             = Throw (CircularReferenceError "Circular reference for variable: x") d' ∧
           Var_value <$> vars d' !! "x" = Some three).
Proof.
  split.
  - intros d name newExpr Hac Hr.
    set (e := default (EValue (NULL d)) newExpr) in *.
    set (d1 := snd (getVar name true d)).
    destruct (getVar_ensure_acyclic name d Hac) as [n Hn]. fold d1 in Hn.
    exists (n + S (height e)). intros fuel Hle. exists d1.
    destruct (setValue_unfold fuel name newExpr d) as (v & Hv & ->). fold e d1.
    destruct (exprContainsVar_terminates (n + S (height e)) d1 e name) as [b Hb].
    { by apply explorable_any. }
    rewrite (exprContainsVar_mono _ fuel _ _ _ _ Hle Hb). destruct b.
    + split; [done|]. split; [|split].
      * intros x w. apply getVar_ensure_old.
      * exact (getVar_ensure_bound name d).
      * exact (getVar_kept name true d).
    + apply exprContainsVar_false in Hb. destruct Hb.
      exact (proj1 (getVar_ensure_reaches name d e) Hr).
  - split; [by vm_compute|]. split; [by vm_compute|].
    intros fuel Hle. eexists. split.
    + eapply (setValue_throw_mono 3); [done|]. vm_compute. reflexivity.
    + by vm_compute.
Qed.

(** C1 at the worked case, through the general statement. *)
Lemma C1_setValue_rejects_cycle_witness :
  acyclic (vars xyz_graph) ∧
  reaches (vars xyz_graph) "x" (default (EValue (NULL xyz_graph)) (Some ref_z)) ∧
  ∃ fuel0, ∀ fuel, fuel0 ≤ fuel →
    ∃ d', setValue fuel "x" (Some ref_z) xyz_graph
            = Throw (CircularReferenceError (circular_msg "x")) d' ∧
          (∀ x v, vars xyz_graph !! x = Some v → vars d' !! x = Some v) ∧
          vars d' !! "x" = fst (getVar "x" true xyz_graph) ∧
          kept xyz_graph d'.
Proof.
  assert (acyclic (vars xyz_graph)) as Hac.
  { apply (acyclicb_sound 3). vm_compute. reflexivity. }
  assert (reaches (vars xyz_graph) "x" (default (EValue (NULL xyz_graph)) (Some ref_z))) as Hr.
  { apply (exprContainsVar_true 3 xyz_graph). vm_compute. reflexivity. }
  split; [exact Hac|]. split; [exact Hr|].
  exact (proj1 C1_setValue_rejects_cycle xyz_graph "x" (Some ref_z) Hac Hr).
Defined.

(** C10.  The fetch-or-create runs before the cycle check: a rejected
    definition of a name that had no [Var] leaves a [Var] of that name in
    the table, bound to the [NULL] singleton. *)
Theorem C10_failed_setValue_creates_var fuel d name newExpr err d' :
  vars d !! name = None →
  setValue fuel name newExpr d = Throw err d' →
  err = CircularReferenceError (circular_msg name) ∧
  vars d' !! name = Some (mkVar name (EValue (NULL d)) "") ∧
  NULL d' = NULL d.
Proof.
  intros Hnone. destruct (setValue_unfold fuel name newExpr d) as (v & _ & ->).
  rewrite getVar_ensure, Hnone. simpl.
  destruct (exprContainsVar _ _ _ _) as [[]|]; [|done..].
  intros [= <- <-]. simpl. by rewrite lookup_insert_eq.
Qed.

(** C10 on [d.setValue("x", d.newVarRef("x"))] in a fresh graph. *)
Lemma C10_failed_setValue_creates_var_witness :
  let r := fst (newVarRef "x" graph0) in
  let d := snd (newVarRef "x" graph0) in
  vars d !! "x" = None ∧
  setValue 1 "x" (Some r) d
    = Throw (CircularReferenceError (circular_msg "x")) (snd (getVar "x" true d)) ∧
  vars (snd (getVar "x" true d)) !! "x" = Some (mkVar "x" (EValue (NULL d)) "").
Proof.
  intros r d.
  assert (vars d !! "x" = None) as H0 by reflexivity.
  assert (setValue 1 "x" (Some r) d
          = Throw (CircularReferenceError (circular_msg "x"))
                  (snd (getVar "x" true d))) as H1 by reflexivity.
  split; [exact H0|]. split; [exact H1|].
  exact (proj1 (proj2 (C10_failed_setValue_creates_var 1 d "x" _ _ _ H0 H1))).
Defined.

(** A successful [setValue] leaves the generation where it was. *)
Lemma setValue_lastModified fuel name newExpr d v d' :
  setValue fuel name newExpr d = Ok v d' → lastModified d' = lastModified d.
Proof. intros H. apply (setValue_kept fuel name newExpr). by rewrite H. Qed.

(** C2, as the code has it: defining [x = 3] and then [x = 4] on a
    fresh graph succeeds both times, and [lastModified] is 0 before,
    between and after. *)
Theorem C2_setValue_keeps_generation :
  match define_twice 1 (new_DAG 0) with
  | Ok (g0, g1, g2) d =>
      g0 = 0%Z ∧ g1 = 0%Z ∧ g2 = 0%Z ∧
      Var_value <$> vars d !! "x" = Some (lit 6 4)
  | _ => False
  end.
Proof. vm_compute. by repeat split. Qed.

(** ** Claims about literals and units *)

(** C6, as stated, fails on a fresh graph: the number literals 0 and 1
    are new instances, not the [ZERO] and [ONE] of the graph. *)
Lemma C6_newNum_not_singleton :
  fst (newNum 0 (new_DAG 0)) ≠ ZERO (new_DAG 0) ∧
  fst (newNum 1 (new_DAG 0)) ≠ ONE (new_DAG 0).
Proof. split; by vm_compute. Qed.

(** C6, amended.  The graph keeps [ZERO] and [ONE] across a numeric
    literal construction, but [newNum] never hands them out: it always
    draws a fresh uuid, so the literal it returns carries the number asked
    for, is none of the five singletons, and differs from the literal the
    next construction returns. *)
Theorem C6_newNum_allocates d n :
  singletons_allocated d →
  let '(v, d') := newNum n d in
  Value_value v = JNum n ∧
  Value_uuid v = counter d ∧ counter d' = S (counter d) ∧
  v ≠ ZERO d ∧ v ≠ ONE d ∧ v ≠ NULL d ∧ v ≠ TRUE d ∧ v ≠ FALSE d ∧
  ZERO d' = ZERO d ∧ ONE d' = ONE d ∧
  fst (newNum n d') ≠ v.
Proof.
  intros (HN & HZ & HO & HT & HF). simpl.
  repeat split; try (intros E; rewrite <- E in *; simpl in *; lia).
  intros [=]. lia.
Qed.

(** C6 amended, on the literal 0 in a fresh graph. *)
Lemma C6_newNum_allocates_witness :
  singletons_allocated (new_DAG 0) ∧
  fst (newNum 0 (new_DAG 0)) ≠ ZERO (new_DAG 0) ∧
  Value_value (fst (newNum 0 (new_DAG 0))) = JNum 0.
Proof.
  assert (singletons_allocated (new_DAG 0)) as H.
  { unfold singletons_allocated. simpl. lia. }
  pose proof (C6_newNum_allocates (new_DAG 0) 0 H) as T.
  split; [exact H|]. simpl in T. split; [apply T | reflexivity].
Defined.

Lemma code_le_total : Total code_le.
Proof.
  unfold code_le. intros x. induction x as [|a x IH]; intros [|b y]; simpl; auto.
  destruct (N.ltb_spec a b), (N.ltb_spec b a), (N.eqb_spec a b), (N.eqb_spec b a);
    auto; lia.
Qed.

Lemma code_le_trans : Transitive code_le.
Proof.
  unfold code_le. intros x. induction x as [|a x IH]; intros [|b y] [|c z]; simpl; try done.
  destruct (N.ltb_spec a b), (N.ltb_spec b c), (N.ltb_spec a c),
    (N.eqb_spec a b), (N.eqb_spec b c), (N.eqb_spec a c); try done; try lia.
  apply IH.
Qed.

Lemma code_le_antisym : AntiSymm (=) code_le.
Proof.
  unfold code_le. intros x. induction x as [|a x IH]; intros [|b y]; simpl; try done.
  destruct (N.ltb_spec a b), (N.ltb_spec b a), (N.eqb_spec a b), (N.eqb_spec b a);
    try done; try lia.
  intros ??. subst. f_equal. by apply IH.
Qed.

Lemma js_sort_Sorted l : Sorted code_le (js_sort l).
Proof. apply (@Sorted_merge_sort _ code_le _ code_le_total). Qed.



(** Once interned, a key answers with the same instance. *)
Lemma newUnits_interned num den d :
  unitsMap (snd (newUnits num den d)) !! units_key num den
    = Some (fst (newUnits num den d)).
Proof.
  unfold newUnits. destruct (unitsMap d !! units_key num den) eqn:Hk; simpl; [done|].
  by rewrite lookup_insert_eq.
Qed.

Lemma newUnits_units_wf num den d : units_wf d → units_wf (snd (newUnits num den d)).
Proof.
  intros Hwf. unfold newUnits.
  destruct (unitsMap d !! units_key num den) eqn:Hk; simpl; [done|].
  intros key u. simpl. destruct (decide (units_key num den = key)) as [<-|Hne].
  - rewrite lookup_insert_eq. intros [= <-]. exists (mkUnits num den). split; [|done].
    by rewrite lookup_app_r, Nat.sub_diag.
  - rewrite lookup_insert_ne by done. intros (un & Hu & Hkey)%Hwf.
    exists un. split; [|done]. by apply lookup_app_l_Some.
Qed.




(** ** Claims about evaluation *)

(** C8.  Evaluating a reference to a name with no [Var] returns the
    [NULL] singleton of the graph, without error and without touching the
    graph; read through the getter when a re-evaluation is due, the same
    value comes back and is cached. *)
Theorem C8_unbound_VarRef_is_NULL fuel u name d :
  vars d !! name = None →
  eval fuel (VarRef u name) d = Ok (NULL d) d ∧
  ((lastEvaluated (VarRef u name) d < lastModified d)%Z →
   latestValue (S fuel) (VarRef u name) d
     = Ok (NULL d) (set_memo (<[u := (lastModified d, NULL d)]> (memo d)) d)).
Proof.
  intros Hnone.
  assert (eval_with (latestValue fuel) (VarRef u name) d = Ok (NULL d) d) as He.
  { simpl. unfold VarRef_eval. by rewrite getVar_lookup, Hnone. }
  split; [exact He|]. intros Hlt%Z.ltb_lt.
  cbn [latestValue]. unfold latestValue_with. rewrite Hlt.
  unfold bind. by rewrite He.
Qed.

(** C8 on [d.newVarRef("nope")] in a fresh graph. *)
Lemma C8_unbound_VarRef_is_NULL_witness :
  let d := snd (newVarRef "nope" graph0) in
  vars d !! "nope" = None ∧
  eval 0 (VarRef 5 "nope") d = Ok (NULL d) d ∧
  latestValue 1 (VarRef 5 "nope") d
    = Ok (NULL d) (set_memo (<[5 := (0%Z, NULL d)]> (memo d)) d).
Proof.
  intros d.
  assert (vars d !! "nope" = None) as H by reflexivity.
  destruct (C8_unbound_VarRef_is_NULL 0 5 "nope" d H) as [H1 H2].
  split; [exact H|]. split; [exact H1|]. apply H2. reflexivity.
Defined.

(** A second read of an expression whose first read returned, with
    nothing done to the graph in between, returns the same value and
    leaves the graph, its call trace included, exactly as it was: no
    native function runs again. *)
Lemma latestValue_reread fuel fuel' e d v d1 :
  latestValue fuel e d = Ok v d1 → latestValue (S fuel') e d1 = Ok v d1.
Proof.
  destruct fuel as [|fuel]; [done|]. simpl.
  assert (∀ lv lv',
    (if (lastEvaluated e d <? lastModified d)%Z then
       (let* v := eval_with lv e in
        λ d', Ok v (set_memo (<[Expr_uuid e := (lastModified d', v)]> (memo d')) d')) d
     else Ok (_latestValue e d) d) = Ok v d1 →
    (if (lastEvaluated e d1 <? lastModified d1)%Z then
       (let* v := eval_with lv' e in
        λ d', Ok v (set_memo (<[Expr_uuid e := (lastModified d', v)]> (memo d')) d')) d1
     else Ok (_latestValue e d1) d1) = Ok v d1) as Hgen.
  { intros lv lv'. destruct (_ <? _)%Z eqn:Hstale.
    - unfold bind at 1. destruct (eval_with lv e d) as [v0 d'|err d'|]; [|done..].
      intros [= <- <-]. unfold lastEvaluated, _latestValue. simpl.
      rewrite lookup_insert_eq. by rewrite Z.ltb_irrefl.
    - intros [= <- <-]. by rewrite Hstale. }
  destruct e; simpl; [by intros [= <- <-] | apply Hgen..].
Qed.

(** C3, as the code has it.  With [x = 3] the expression [x + 5] reads 8
    after one call of the native ["+"]; [x] is then redefined to 10, and
    the next read of the same expression still returns the cached 8
    without calling ["+"] again. *)
Theorem C3_stale_read_after_redefinition :
  match read_redefine_read 4 graph0 with
  | Ok (v1, c1, (v2, c2)) d =>
      Value_value v1 = JNum 8 ∧ c1 = 1 ∧
      v2 = v1 ∧ c2 = 1 ∧
      Var_value <$> vars d !! "x" = Some (EValue (mkValue 10 (JNum 10))) ∧
      lastModified d = 0%Z
  | _ => False
  end.
Proof. vm_compute. by repeat split. Qed.

Lemma map_latest_funcs lv args d values d1 :
  (∀ e d d', final_state (lv e d) = Some d' → framed d d') →
  map_latest lv args d = Ok values d1 → funcs d1 = funcs d.
Proof.
  intros Hlv H. apply (framed_funcs d d1).
  apply (map_latest_framed lv Hlv args). by rewrite H.
Qed.

(** C9, as stated, fails in both directions.  With ["+"] registered, the
    call [+(nope())] raises the invalid-reference error of its argument;
    with ["-"] registered to a function that throws on an empty argument
    list, the call [nope(-())] of the unregistered [nope] raises that
    function's error, not an invalid-reference error. *)
Lemma C9_invalid_ref_not_iff :
  (is_Some (funcs graph0 !! "+") ∧
   match eval_nested "+" "nope" 2 graph0 with
   | Throw err _ => err = InvalidRefError "Invalid reference: nope"
   | _ => False
   end) ∧
  (funcs (regFunc "-" Minus (new_DAG 0)) !! "nope" = None ∧
   match eval_nested "nope" "-" 2 (regFunc "-" Minus (new_DAG 0)) with
   | Throw err _ => err = NativeError "TypeError: Cannot read properties of undefined"
   | _ => False
   end).
Proof. split; split; [by eexists | by vm_compute | done | by vm_compute]. Qed.

Lemma map_latest_children_return fuel args d values d1 :
  children_return fuel args d values d1 →
  map_latest (latestValue fuel) args d = Ok values d1.
Proof.
  induction 1 as [d|a rest d v d1 vs d2 Ha _ IH]; simpl; [done|].
  unfold bind at 1. rewrite Ha. unfold bind. by rewrite IH.
Qed.

Lemma map_latest_children_throw fuel args d err d1 :
  children_throw fuel args d err d1 →
  map_latest (latestValue fuel) args d = Throw err d1.
Proof.
  induction 1 as [a rest d err d1 Ha|a rest d v d1 err d2 Ha _ IH]; simpl.
  - unfold bind. by rewrite Ha.
  - unfold bind at 1. rewrite Ha. unfold bind. by rewrite IH.
Qed.

(** C9, amended.  Construction accepts any name, registered or not.
    Evaluation reads the children first, from the left: when one of them
    throws (a nested invalid-reference error included), that error is the
    outcome, the children to its right are not read, and no function is
    looked up.  When all the children have returned, the name is looked
    up in the registry: if it is not registered the call raises the
    invalid-reference error naming it; if it is, the function is invoked
    once on the children's values, the value it returns is what the call
    returns (a new [Value]) and the error it throws is what the call
    throws.  So [+(nope1(), nope2())] raises the error for [nope1], and
    [+(3, 5)] returns 8 after one call of ["+"] on [3, 5]. *)
Theorem C9_FuncCall_eval :
  (∀ name args d,
     newFunc name args d = (FuncCall (counter d) name args, set_counter (S (counter d)) d)) ∧
  (∀ fuel u name args d err d1,
     children_throw fuel args d err d1 →
     eval fuel (FuncCall u name args) d = Throw err d1) ∧
  (∀ fuel u name args d values d1,
     children_return fuel args d values d1 →
     (funcs d1 !! name = None →
      eval fuel (FuncCall u name args) d
        = Throw (InvalidRefError ("Invalid reference: " +:+ name)) d1) ∧
     (∀ func, funcs d1 !! name = Some func →
        let d2 := set_calls (calls d1 ++ [(name, values)]) d1 in
        match func values with
        | Returns out =>
            eval fuel (FuncCall u name args) d
              = Ok (mkValue (counter d1) out) (set_counter (S (counter d1)) d2)
        | Throws err => eval fuel (FuncCall u name args) d = Throw err d2
        end)) ∧
  (is_Some (funcs graph0 !! "+") ∧
   match eval_pair "+" "nope1" "nope2" 2 graph0 with
   | Throw err d => err = InvalidRefError "Invalid reference: nope1" ∧ calls d = []
   | _ => False
   end) ∧
  match eval_3_plus_5 1 graph0 with
  | Ok (v, trace) _ =>
      v = mkValue 8 (JNum 8) ∧
      trace = [("+", [mkValue 5 (JNum 3); mkValue 6 (JNum 5)])]
  | _ => False
  end.
Proof.
  split; [done|]. split; [|split; [|split]].
  - intros fuel u name args d err d1 Hm%map_latest_children_throw.
    unfold eval. simpl. unfold FuncCall_eval, bind. by rewrite Hm.
  - intros fuel u name args d values d1 Hm%map_latest_children_return.
    assert (eval fuel (FuncCall u name args) d =
            match funcs d1 !! name with
            | None => Throw (InvalidRefError (invalid_ref_msg name)) d1
            | Some func => invoke name func values d1
            end) as ->.
    { unfold eval. simpl. unfold FuncCall_eval, bind. rewrite Hm.
      unfold getFunc. by destruct (funcs d1 !! name). }
    unfold FuncType in *.
    split; [by intros ->|]. intros func ->. unfold invoke, new_Value.
    by destruct (func values).
  - split; [by eexists | by vm_compute].
  - by vm_compute.
Qed.

(** C9 amended, on [+(nope1(), nope2())] and on [+(3, 5)] with ["+"]
    registered. *)
Lemma C9_FuncCall_eval_witness :
  let d := snd (newFunc "nope2" [] (snd (newFunc "nope1" [] graph0))) in
  let pair := [FuncCall 5 "nope1" []; FuncCall 6 "nope2" []] in
  let values := [mkValue 5 (JNum 3); mkValue 6 (JNum 5)] in
  children_throw 1 pair d (InvalidRefError "Invalid reference: nope1") d ∧
  eval 1 (FuncCall 7 "+" pair) d = Throw (InvalidRefError "Invalid reference: nope1") d ∧
  children_return 1 args_3_5 graph_3_5 values graph_3_5 ∧
  funcs graph_3_5 !! "+" = Some Plus ∧
  eval 1 (FuncCall 7 "+" args_3_5) graph_3_5
  = Ok (mkValue 8 (JNum 8))
       (set_counter 9 (set_calls [("+", values)] graph_3_5)).
Proof.
  intros d pair values.
  assert (children_throw 1 pair d (InvalidRefError "Invalid reference: nope1") d) as Ht.
  { apply children_throw_here. reflexivity. }
  assert (children_return 1 args_3_5 graph_3_5 values graph_3_5) as Hr.
  { repeat (eapply children_return_cons; [reflexivity|]). apply children_return_nil. }
  assert (funcs graph_3_5 !! "+" = Some Plus) as Hf by reflexivity.
  destruct C9_FuncCall_eval as (_ & H2 & H3 & _).
  split; [exact Ht|]. split; [exact (H2 1 7 "+" pair d _ d Ht)|].
  split; [exact Hr|]. split; [exact Hf|].
  exact (proj2 (H3 1 7 "+" args_3_5 graph_3_5 values graph_3_5 Hr) Plus Hf).
Defined.

(** ** Claims about the resolver *)

Lemma push_aligned xs ex : aligned ex → aligned (push xs ex).
Proof.
  revert ex. induction xs as [|x xs IH]; intros ex H; simpl; [done|].
  apply IH. unfold aligned in *. simpl. by rewrite H, fmap_app.
Qed.

Lemma push_children xs ex : children (push xs ex) = children ex ++ xs.
Proof.
  revert ex. induction xs as [|x xs IH]; intros ex; simpl; [by rewrite app_nil_r|].
  rewrite IH. simpl. by rewrite <- app_assoc.
Qed.

Lemma isOP_at_aligned ex index :
  aligned ex → isOP_at ex index = default false (is_string <$> children ex !! index).
Proof. unfold isOP_at, aligned. intros ->. by rewrite list_lookup_fmap. Qed.

Section resolver_steps.
Variable p : Parser.
Variable opex : OpExpr.

(** [parse] takes one token and seeds [left] with its [nud]. *)
Lemma parse_seed fuel rbp i d :
  hasMore opex i = true →
  parse p opex (S fuel) rbp i d =
    (let* (seed, i2) := nud p opex (parse p opex fuel) i (S i) in
     parse_while p opex fuel rbp seed i2) d.
Proof. intros H. simpl. unfold next. by rewrite H. Qed.

Lemma parse_no_token fuel rbp i d :
  hasMore opex i = false →
  parse p opex (S fuel) rbp i d = Throw (JsError "No more tokens") d.
Proof. intros H. simpl. unfold next. by rewrite H. Qed.

(** The loop ends at the end of the chain ... *)
Lemma parse_while_end fuel rbp left i d :
  hasMore opex i = false →
  parse_while p opex (S fuel) rbp left i d = Ok (left, i) d.
Proof. intros H. simpl. by rewrite H. Qed.

(** ... and in front of an operator that does not bind more tightly
    than the threshold, which it leaves unconsumed. *)
Lemma parse_while_stop fuel rbp left i d power :
  hasMore opex i = true →
  bpof p opex i d = Ok power d → (power ≤ rbp)%Z →
  parse_while p opex (S fuel) rbp left i d = Ok (left, i) d.
Proof.
  intros H Hb Hle. simpl. rewrite H. unfold bind, peek. rewrite Hb.
  by rewrite (proj2 (Z.ltb_ge _ _) Hle).
Qed.

(** An operator that binds more tightly is consumed by [led], and the
    loop goes on with the folded expression. *)
Lemma parse_while_fold fuel rbp left i d power :
  hasMore opex i = true →
  bpof p opex i d = Ok power d → (rbp < power)%Z →
  parse_while p opex (S fuel) rbp left i d =
    (let* (folded, i2) := led p opex (parse p opex fuel) i left (S i) in
     parse_while p opex fuel rbp folded i2) d.
Proof.
  intros H Hb Hlt. simpl. rewrite H. unfold bind at 1, peek. rewrite Hb.
  rewrite (proj2 (Z.ltb_lt _ _) Hlt). unfold next. by rewrite H.
Qed.

(** [led] on a LEFT operator: [op(left, parse(bp))]. *)
Lemma led_LEFT prs t s o left rhs i i' d d' :
  isOP_at opex t = true →
  children opex !! t = Some (IOp s) →
  opinfos p !! s = Some o →
  Operator.assoc o = Operator.LEFT →
  prs (Operator.bp o) i d = Ok (rhs, i') d' →
  led p opex prs t left i d =
    Ok (FuncCall (counter d') (Operator.op o) [left; rhs], i')
       (set_counter (S (counter d')) d').
Proof.
  intros HisOP Hc Ho Ha Hp. unfold led. rewrite HisOP, Hc. simpl. rewrite Ho.
  unfold bind at 1, ret. rewrite Ha. simpl. unfold bind at 1. by rewrite Hp.
Qed.

(** [nud] on an operator with a prefix binding power:
    [op(parse(prefixBP))]. *)
Lemma nud_prefix prs t s o arg i i' d d' :
  isOP_at opex t = true →
  children opex !! t = Some (IOp s) →
  opinfos p !! s = Some o →
  (0 ≤ Operator.prefixBP o)%Z →
  prs (Operator.prefixBP o) i d = Ok (arg, i') d' →
  nud p opex prs t i d =
    Ok (FuncCall (counter d') (Operator.op o) [arg], i')
       (set_counter (S (counter d')) d').
Proof.
  intros HisOP Hc Ho Hge Hp. unfold nud. rewrite HisOP, Hc. simpl. rewrite Ho.
  unfold bind at 1, ret. rewrite (proj2 (Z.ltb_ge _ _) Hge).
  unfold bind at 1. by rewrite Hp.
Qed.

(** [nud] on an operator without one. *)
Lemma nud_no_prefix prs t s o i d :
  isOP_at opex t = true →
  children opex !! t = Some (IOp s) →
  opinfos p !! s = Some o →
  (Operator.prefixBP o < 0)%Z →
  nud p opex prs t i d =
    Throw (JsError "([object Object]) is not be a prefix operator") d.
Proof.
  intros HisOP Hc Ho Hlt. unfold nud. rewrite HisOP, Hc. simpl. rewrite Ho.
  unfold bind at 1, ret. by rewrite (proj2 (Z.ltb_lt _ _) Hlt).
Qed.

(** [nud] on a term. *)
Lemma nud_term prs t e i d :
  isOP_at opex t = false →
  children opex !! t = Some (ITerm e) →
  nud p opex prs t i d = Ok (e, i) d.
Proof. intros HisOP Hc. unfold nud. by rewrite HisOP, Hc. Qed.
End resolver_steps.

Lemma debugValue_fold_calls name u acc ts :
  debugValue (fold_calls name u acc ts)
  = foldl (λ a t, DFunc name [a; debugValue t]) (debugValue acc) ts.
Proof. revert u acc. induction ts as [|t ts IH]; intros u acc; simpl; [done|]. by rewrite IH. Qed.

Section left_chain.
Variable p : Parser.
Variable opex : OpExpr.
Variable s : string.
Variable o : Operator.t.
Hypothesis opex_aligned : aligned opex.
Hypothesis o_registered : opinfos p !! s = Some o.
Hypothesis o_LEFT : Operator.assoc o = Operator.LEFT.

Lemma drop_cons_lookup i (x : item) rest :
  drop i (children opex) = x :: rest →
  children opex !! i = Some x ∧ hasMore opex i = true ∧
  drop (S i) (children opex) = rest.
Proof using Type.
  intros H.
  assert (children opex !! i = Some x) as Hx.
  { rewrite <- (Nat.add_0_r i), <- lookup_drop. by rewrite H. }
  split; [done|]. split.
  - apply Nat.ltb_lt. by eapply lookup_lt_Some.
  - replace (S i) with (i + 1) by lia. by rewrite <- drop_drop, H.
Qed.

Lemma drop_nil_hasMore i :
  drop i (children opex) = [] → hasMore opex i = false.
Proof using Type.
  intros H. apply Nat.ltb_ge. apply (f_equal length) in H.
  rewrite length_drop in H. simpl in H. lia.
Qed.

Lemma bpof_registered i d rest :
  drop i (children opex) = IOp s :: rest →
  bpof p opex i d = Ok (Operator.bp o) d.
Proof using opex_aligned o_registered.
  intros (Hx & _ & _)%drop_cons_lookup. unfold bpof.
  rewrite (isOP_at_aligned _ _ opex_aligned), Hx. simpl. by rewrite o_registered.
Qed.

(** An operand followed by the same operator, or by nothing, is all
    that [parse(bp)] takes. *)
Lemma parse_operand fuel t ts i d :
  drop i (children opex) = ITerm t :: infix_tail s ts →
  parse p opex (S (S fuel)) (Operator.bp o) i d = Ok (t, S i) d.
Proof using opex_aligned o_registered.
  intros (Hx & Hm & Hrest)%drop_cons_lookup.
  rewrite parse_seed by done. unfold bind.
  rewrite (nud_term _ _ _ _ t); [|by rewrite (isOP_at_aligned _ _ opex_aligned), Hx | done].
  destruct ts as [|t' ts]; simpl in Hrest.
  - by rewrite parse_while_end by by apply drop_nil_hasMore.
  - apply (parse_while_stop _ _ _ _ _ _ _ (Operator.bp o)); [|by eapply bpof_registered | lia].
    by apply drop_cons_lookup in Hrest as (_ & ? & _).
Qed.

Hypothesis o_infix : (0 < Operator.bp o)%Z.

(** The loop of the outermost [parse] folds the rest of the chain to
    the left, one call per operator. *)
Lemma parse_while_left_chain fuel left ts i d :
  drop i (children opex) = infix_tail s ts →
  2 * length ts + 1 ≤ fuel →
  parse_while p opex fuel 0%Z left i d =
    Ok (fold_calls (Operator.op o) (counter d) left ts, i + 2 * length ts)
       (set_counter (counter d + length ts) d).
Proof using opex_aligned o_registered o_LEFT o_infix.
  revert fuel left i d. induction ts as [|t ts IH]; intros fuel left i d Hd Hf.
  - destruct fuel as [|fuel]; [lia|]. simpl in Hd.
    rewrite parse_while_end by by apply drop_nil_hasMore.
    simpl. rewrite !Nat.add_0_r. by destruct d.
  - destruct fuel as [|[|fuel]]; [simpl in Hf; lia..|]. simpl in Hd, Hf.
    pose proof Hd as (Hx & Hm & Hrest)%drop_cons_lookup.
    rewrite (parse_while_fold _ _ _ _ _ _ _ (Operator.bp o));
      [|done | by eapply bpof_registered | done].
    unfold bind.
    rewrite (led_LEFT _ _ _ _ s o left t (S i) (S (S i)) d d);
      [|by rewrite (isOP_at_aligned _ _ opex_aligned), Hx | done..
       |destruct fuel as [|fuel]; [lia|]; by apply (parse_operand _ _ ts)].
    apply drop_cons_lookup in Hrest as (_ & _ & Hrest).
    rewrite (IH _ _ _ _ Hrest) by lia. simpl.
    f_equal; [f_equal; lia|]. unfold set_counter. simpl. f_equal. lia.
Qed.
End left_chain.

(** A chain [t0 s t1 s ... s tn] of one LEFT operator with a positive
    binding power resolves to the left-nested calls. *)
Lemma ensureExpr_left_chain p s o t0 ts d :
  opinfos p !! s = Some o →
  Operator.assoc o = Operator.LEFT →
  (0 < Operator.bp o)%Z →
  ensureExpr p (inl (push (ITerm t0 :: infix_tail s ts) new_OpExpr)) d =
    Ok (fold_calls (Operator.op o) (counter d) t0 ts)
       (set_counter (counter d + length ts) d).
Proof.
  intros Ho Ha Hbp. set (opex := push _ _).
  assert (aligned opex) as Hal by by apply push_aligned.
  assert (children opex = ITerm t0 :: infix_tail s ts) as Hch
    by (unfold opex; by rewrite push_children).
  assert (length (children opex) = S (2 * length ts)) as Hlen.
  { rewrite Hch. simpl. f_equal. unfold infix_tail. clear.
    induction ts as [|t ts IH]; simpl; [done|]. rewrite IH. lia. }
  unfold ensureExpr. rewrite Hlen. unfold bind at 1.
  rewrite parse_seed by (apply Nat.ltb_lt; lia). unfold bind at 1.
  rewrite (nud_term _ _ _ _ t0);
    [|by rewrite (isOP_at_aligned _ _ Hal), Hch | by rewrite Hch].
  rewrite (parse_while_left_chain p opex s o Hal Ho Ha Hbp _ _ ts);
    [done | by rewrite Hch | lia].
Qed.

(** C4.  [parse(rbp)] takes one token and seeds [left] with its [nud];
    its loop stops at the end of the chain or before an operator whose
    binding power does not strictly exceed [rbp], and otherwise consumes
    the operator through [led] and goes on with the result; [led] on a
    LEFT operator builds the call [op(left, parse(bp))]; the resolver
    always finishes.  Hence a chain [t0 op t1 op ... op tn] of one LEFT
    operator nests to the left, and with the table of the tests
    ["1 + 2 + 3"] resolves to [+(+(1,2),3)]. *)
Theorem C4_parse_left_associative :
  (∀ p opex fuel rbp i d,
     hasMore opex i = true →
     parse p opex (S fuel) rbp i d =
       (let* (seed, i2) := nud p opex (parse p opex fuel) i (S i) in
        parse_while p opex fuel rbp seed i2) d) ∧
  (∀ p opex fuel rbp left i d,
     hasMore opex i = false →
     parse_while p opex (S fuel) rbp left i d = Ok (left, i) d) ∧
  (∀ p opex fuel rbp left i d power,
     hasMore opex i = true →
     bpof p opex i d = Ok power d →
     parse_while p opex (S fuel) rbp left i d =
       if (rbp <? power)%Z then
         (let* (folded, i2) := led p opex (parse p opex fuel) i left (S i) in
          parse_while p opex fuel rbp folded i2) d
       else Ok (left, i) d) ∧
  (∀ p opex prs t s o left rhs i i' d d',
     isOP_at opex t = true →
     children opex !! t = Some (IOp s) →
     opinfos p !! s = Some o →
     Operator.assoc o = Operator.LEFT →
     prs (Operator.bp o) i d = Ok (rhs, i') d' →
     led p opex prs t left i d =
       Ok (FuncCall (counter d') (Operator.op o) [left; rhs], i')
          (set_counter (S (counter d')) d')) ∧
  (∀ p ex d, ∃ d', final_state (ensureExpr p ex d) = Some d' ∧ framed d d') ∧
  (∀ p s o t0 ts d,
     opinfos p !! s = Some o →
     Operator.assoc o = Operator.LEFT →
     (0 < Operator.bp o)%Z →
     ensureExpr p (inl (push (ITerm t0 :: infix_tail s ts) new_OpExpr)) d =
       Ok (fold_calls (Operator.op o) (counter d) t0 ts)
          (set_counter (counter d + length ts) d)) ∧
  (∀ d,
     match chain_1_plus_2_plus_3 test_table d with
     | Ok chain d1 =>
         debugValue <$> ensureExpr_value (ensureExpr test_table (inl chain) d1)
         = Some (DFunc "+" [DFunc "+" [DValue (JNum 1); DValue (JNum 2)];
                            DValue (JNum 3)])
     | _ => False
     end).
Proof.
  split; [exact parse_seed|]. split; [exact parse_while_end|].
  split; [|split; [exact led_LEFT|]].
  - intros p opex fuel rbp left i d power Hm Hb.
    destruct (rbp <? power)%Z eqn:Hlt.
    + by eapply parse_while_fold; [| |apply Z.ltb_lt].
    + by eapply parse_while_stop; [| |apply Z.ltb_ge].
  - split; [exact ensureExpr_total|]. split; [exact ensureExpr_left_chain|].
    intros d. vm_compute. reflexivity.
Qed.

(** C4 on the chain [1 + 2 + 3] itself, through the statement for
    chains of one LEFT operator. *)
Lemma C4_parse_left_associative_witness :
  let o := Operator.new "+" 10 (Some Operator.LEFT) (Some 100%Z) in
  opinfos test_table !! "+" = Some o ∧
  Operator.assoc o = Operator.LEFT ∧
  (0 < Operator.bp o)%Z ∧
  chain_1_plus_2_plus_3 test_table (new_DAG 0)
  = Ok (push [ITerm (lit 5 1); IOp "+"; ITerm (lit 6 2); IOp "+"; ITerm (lit 7 3)]
             new_OpExpr) graph_123 ∧
  ensureExpr test_table
    (inl (push [ITerm (lit 5 1); IOp "+"; ITerm (lit 6 2); IOp "+"; ITerm (lit 7 3)]
               new_OpExpr))
    graph_123
  = Ok (FuncCall 9 "+" [FuncCall 8 "+" [lit 5 1; lit 6 2]; lit 7 3])
       (set_counter 10 graph_123).
Proof.
  intros o.
  assert (opinfos test_table !! "+" = Some o) as Ho by (vm_compute; reflexivity).
  assert (Operator.assoc o = Operator.LEFT) as Ha by reflexivity.
  assert (0 < Operator.bp o)%Z as Hbp by reflexivity.
  split; [exact Ho|]. split; [exact Ha|]. split; [exact Hbp|].
  split; [vm_compute; reflexivity|].
  destruct C4_parse_left_associative as (_ & _ & _ & _ & _ & Hchain & _).
  exact (Hchain test_table "+" o (lit 5 1) [lit 6 2; lit 7 3] graph_123 Ho Ha Hbp).
Defined.

(** A chain that opens with an operator lacking a prefix binding power
    is rejected before anything is built. *)
Lemma ensureExpr_no_prefix p s o rest d :
  opinfos p !! s = Some o →
  (Operator.prefixBP o < 0)%Z →
  ensureExpr p (inl (push (IOp s :: rest) new_OpExpr)) d =
    Throw (JsError "([object Object]) is not be a prefix operator") d.
Proof.
  intros Ho Hlt. set (opex := push _ _).
  assert (aligned opex) as Hal by by apply push_aligned.
  assert (children opex = IOp s :: rest) as Hch
    by (unfold opex; by rewrite push_children).
  unfold ensureExpr, bind. rewrite parse_seed by (apply Nat.ltb_lt; rewrite Hch; simpl; lia).
  unfold bind.
  rewrite (nud_no_prefix _ _ _ _ s o);
    [done | by rewrite (isOP_at_aligned _ _ Hal), Hch | by rewrite Hch | done..].
Qed.

(** A chain made of a prefix operator and a term is the unary call. *)
Lemma ensureExpr_prefix p s o t d :
  opinfos p !! s = Some o →
  (0 ≤ Operator.prefixBP o)%Z →
  ensureExpr p (inl (push [IOp s; ITerm t] new_OpExpr)) d =
    Ok (FuncCall (counter d) (Operator.op o) [t]) (set_counter (S (counter d)) d).
Proof.
  intros Ho Hge. set (opex := push _ _).
  assert (aligned opex) as Hal by by apply push_aligned.
  assert (children opex = [IOp s; ITerm t]) as Hch by done.
  unfold ensureExpr, bind. rewrite Hch. cbn [length].
  rewrite parse_seed by (apply Nat.ltb_lt; rewrite Hch; simpl; lia).
  unfold bind.
  rewrite (nud_prefix _ _ _ _ s o t 1 2 d d);
    [|by rewrite (isOP_at_aligned _ _ Hal), Hch | by rewrite Hch | done..|].
  - by rewrite parse_while_end by (apply Nat.ltb_ge; rewrite Hch; simpl; lia).
  - rewrite parse_seed by (apply Nat.ltb_lt; rewrite Hch; simpl; lia).
    unfold bind.
    rewrite (nud_term _ _ _ _ t);
      [|by rewrite (isOP_at_aligned _ _ Hal), Hch | by rewrite Hch].
    by rewrite parse_while_end by (apply Nat.ltb_ge; rewrite Hch; simpl; lia).
Qed.

(** C5.  [nud] on an operator token whose table entry has a prefix
    binding power builds the unary call named for the operator on
    [parse(prefixBP)]; on an operator whose entry has none (the
    constructor's default is -1) it throws "... is not be a prefix
    operator".  So a chain [op t] is the unary call, ["- 3"] resolves to
    [-(3)] with the table of the tests, and a chain opening with an
    operator without prefix power, like ["* 3"], is rejected. *)
Theorem C5_nud_prefix_operator :
  (∀ p opex prs t s o arg i i' d d',
     isOP_at opex t = true →
     children opex !! t = Some (IOp s) →
     opinfos p !! s = Some o →
     (0 ≤ Operator.prefixBP o)%Z →
     prs (Operator.prefixBP o) i d = Ok (arg, i') d' →
     nud p opex prs t i d =
       Ok (FuncCall (counter d') (Operator.op o) [arg], i')
          (set_counter (S (counter d')) d')) ∧
  (∀ p opex prs t s o i d,
     isOP_at opex t = true →
     children opex !! t = Some (IOp s) →
     opinfos p !! s = Some o →
     (Operator.prefixBP o < 0)%Z →
     nud p opex prs t i d =
       Throw (JsError "([object Object]) is not be a prefix operator") d) ∧
  (∀ s bp assoc, (Operator.prefixBP (Operator.new s bp assoc None) < 0)%Z) ∧
  (∀ p s o t d,
     opinfos p !! s = Some o →
     (0 ≤ Operator.prefixBP o)%Z →
     ensureExpr p (inl (push [IOp s; ITerm t] new_OpExpr)) d =
       Ok (FuncCall (counter d) (Operator.op o) [t]) (set_counter (S (counter d)) d)) ∧
  (∀ p s o rest d,
     opinfos p !! s = Some o →
     (Operator.prefixBP o < 0)%Z →
     ensureExpr p (inl (push (IOp s :: rest) new_OpExpr)) d =
       Throw (JsError "([object Object]) is not be a prefix operator") d) ∧
  (∀ d,
     match chain_minus_3 test_table d with
     | Ok chain d1 =>
         debugValue <$> ensureExpr_value (ensureExpr test_table (inl chain) d1)
         = Some (DFunc "-" [DValue (JNum 3)])
     | _ => False
     end) ∧
  (∀ d,
     ensureExpr test_table (inl (push [IOp "*"; ITerm three] new_OpExpr)) d =
       Throw (JsError "([object Object]) is not be a prefix operator") d).
Proof.
  split; [exact nud_prefix|]. split; [exact nud_no_prefix|]. split; [done|].
  split; [exact ensureExpr_prefix|]. split; [exact ensureExpr_no_prefix|]. split.
  - intros d. vm_compute. reflexivity.
  - intros d. by apply (ensureExpr_no_prefix _ _ (Operator.new "*" 30 None None)).
Qed.

(** C5 on the chain [- 3] with the table of the tests. *)
Lemma C5_nud_prefix_operator_witness :
  let o := Operator.new "-" 10 (Some Operator.LEFT) (Some 100%Z) in
  let d := snd (newNum 3 (new_DAG 0)) in
  opinfos test_table !! "-" = Some o ∧
  (0 ≤ Operator.prefixBP o)%Z ∧
  chain_minus_3 test_table (new_DAG 0)
  = Ok (push [IOp "-"; ITerm (lit 5 3)] new_OpExpr) d ∧
  ensureExpr test_table (inl (push [IOp "-"; ITerm (lit 5 3)] new_OpExpr)) d
  = Ok (FuncCall 6 "-" [lit 5 3]) (set_counter 7 d).
Proof.
  intros o d.
  assert (opinfos test_table !! "-" = Some o) as Ho by (vm_compute; reflexivity).
  assert (0 ≤ Operator.prefixBP o)%Z as Hge by (vm_compute; discriminate).
  split; [exact Ho|]. split; [exact Hge|]. split; [vm_compute; reflexivity|].
  destruct C5_nud_prefix_operator as (_ & _ & _ & Hpre & _).
  exact (Hpre test_table "-" o (lit 5 3) d Ho Hge).
Defined.


(** * Properties of the rest of the interface *)

(** ** The variable table *)

(** Following a search that reaches [x] costs the traversal at least one
    level before it enters the definition of [x]. *)
Lemma explorable_reaches vs x v e n :
  vs !! x = Some v → reaches vs x e → explorable n vs e = true →
  ∃ m, m < n ∧ explorable m vs (Var_value v) = true.
Proof.
  intros Hx Hr. revert n. induction Hr as [u|u y w Hne Hy _ IH|u f args e He _ IH];
    intros [|n]; simpl; try done.
  - rewrite Hx. intros H. exists n. split; [lia | done].
  - rewrite Hy. intros (m & ? & ?)%IH. exists m. split; [lia | done].
  - intros H. assert (explorable n vs e = true) as He'.
    { eapply forallb_forall in H; [done|]. by apply list_elem_of_In. }
    apply IH in He' as (m & ? & ?). exists m. split; [lia | done].
Qed.

Lemma acyclic_no_self_reach vs x v :
  acyclic vs → vs !! x = Some v → ¬ reaches vs x (Var_value v).
Proof.
  intros [n Hn] Hx Hr. specialize (Hn x v Hx).
  induction n as [n IH] using lt_wf_ind.
  destruct (explorable_reaches vs x v _ n Hx Hr Hn) as (m & Hlt & Hm). eauto.
Qed.

(** X1.  In every graph built through the interface, no variable's
    defining expression leads back to the variable, neither directly nor
    through the definitions of other variables. *)
Theorem X1_reachable_no_cycle d x v :
  reachable d → vars d !! x = Some v → ¬ reaches (vars d) x (Var_value v).
Proof. intros Hd. apply acyclic_no_self_reach. by apply reachable_acyclic. Qed.

(** Programs written with the interface only take [step]s. *)
Lemma rtc_step_bind {A B} (m : M A) (k : A → M B) :
  (∀ d d', final_state (m d) = Some d' → rtc step d d') →
  (∀ a d d', final_state (k a d) = Some d' → rtc step d d') →
  ∀ d d', final_state (bind m k d) = Some d' → rtc step d d'.
Proof.
  intros Hm Hk d d' [[err H]|(a & d1 & H & H')]%final_bind.
  - apply Hm. by rewrite H.
  - etrans; [apply Hm; by rewrite H | by eapply Hk].
Qed.

Lemma rtc_step_newNum n d d' :
  final_state (lift (newNum n) d) = Some d' → rtc step d d'.
Proof. intros [= <-]. apply rtc_once, step_alloc. Qed.

Lemma rtc_step_newVarRef name d d' :
  final_state (lift (newVarRef name) d) = Some d' → rtc step d d'.
Proof. intros [= <-]. apply rtc_once, step_alloc. Qed.

Lemma rtc_step_newFunc name args d d' :
  final_state (lift (newFunc name args) d) = Some d' → rtc step d d'.
Proof. intros [= <-]. apply rtc_once, step_alloc. Qed.

Lemma rtc_step_setValue fuel name e d d' :
  final_state (setValue fuel name e d) = Some d' → rtc step d d'.
Proof. intros H. by eapply rtc_once, step_setValue. Qed.

Lemma rtc_step_define_xyz fuel d d' :
  final_state (define_xyz fuel d) = Some d' → rtc step d d'.
Proof.
  revert d d'. unfold define_xyz, newVar.
  repeat (apply rtc_step_bind; [first [apply rtc_step_newNum | apply rtc_step_newVarRef
            | apply rtc_step_newFunc | apply rtc_step_setValue]|intros ?]).
  apply rtc_step_newVarRef.
Qed.

Lemma reachable_graph0 : reachable graph0.
Proof. exists 0. apply rtc_once, step_regFunc. Qed.

Lemma reachable_rtc d d' : reachable d → rtc step d d' → reachable d'.
Proof. intros [c H] H'. exists c. by etrans. Qed.

Lemma reachable_xyz_graph : reachable xyz_graph.
Proof.
  eapply reachable_rtc; [apply reachable_graph0|].
  apply (rtc_step_define_xyz 5).
  assert (define_xyz 5 graph0 = Ok ref_z xyz_graph) as -> by (vm_compute; reflexivity).
  reflexivity.
Qed.

(** X1 on [z = x + y] in the graph of the test. *)
Lemma X1_reachable_no_cycle_witness :
  reachable xyz_graph ∧
  vars xyz_graph !! "z"
    = Some (mkVar "z" (FuncCall 9 "+" [VarRef 7 "x"; VarRef 8 "y"]) "") ∧
  ¬ reaches (vars xyz_graph) "z" (FuncCall 9 "+" [VarRef 7 "x"; VarRef 8 "y"]).
Proof.
  assert (vars xyz_graph !! "z"
    = Some (mkVar "z" (FuncCall 9 "+" [VarRef 7 "x"; VarRef 8 "y"]) "")) as Hz
    by (vm_compute; reflexivity).
  split; [exact reachable_xyz_graph|]. split; [exact Hz|].
  exact (X1_reachable_no_cycle xyz_graph "z" _ reachable_xyz_graph Hz).
Defined.

(** X2.  Whenever the cycle check answers, its answer is reachability:
    [true] exactly when the search from the expression arrives at the
    name.  On an acyclic variable table it answers for every expression
    and name once the recursion budget is large enough. *)
Theorem X2_exprContainsVar_exact :
  (∀ fuel d e name b,
     exprContainsVar fuel d (Some e) name = Some b →
     (b = true ↔ reaches (vars d) name e)) ∧
  (∀ d e name,
     acyclic (vars d) →
     ∃ fuel0, ∀ fuel, fuel0 ≤ fuel → is_Some (exprContainsVar fuel d (Some e) name)).
Proof.
  split.
  - intros fuel d e name [] H.
    + split; [intros _; by eapply exprContainsVar_true | done].
    + split; [done|]. intros Hr. by eapply exprContainsVar_false in H.
  - intros d e name [n Hn]. exists (n + S (height e)). intros fuel Hle.
    destruct (exprContainsVar_terminates (n + S (height e)) d e name) as [b Hb].
    { by apply explorable_any. }
    exists b. by eapply exprContainsVar_mono.
Qed.

(** X2 on the reference to [z] and the name [y] in the graph of the test. *)
Lemma X2_exprContainsVar_exact_witness :
  acyclic (vars xyz_graph) ∧
  exprContainsVar 4 xyz_graph (Some ref_z) "y" = Some true ∧
  reaches (vars xyz_graph) "y" ref_z ∧
  ∃ fuel0, ∀ fuel, fuel0 ≤ fuel → is_Some (exprContainsVar fuel xyz_graph (Some ref_z) "y").
Proof.
  assert (acyclic (vars xyz_graph)) as Hac.
  { apply (acyclicb_sound 3). vm_compute. reflexivity. }
  assert (exprContainsVar 4 xyz_graph (Some ref_z) "y" = Some true) as Hc
    by (vm_compute; reflexivity).
  split; [exact Hac|]. split; [exact Hc|]. split.
  - exact (proj1 (proj1 X2_exprContainsVar_exact 4 xyz_graph ref_z "y" true Hc) eq_refl).
  - exact (proj2 X2_exprContainsVar_exact xyz_graph ref_z "y" Hac).
Defined.

(** X3.  On an acyclic variable table [setValue] finishes once the
    budget is large enough, and it rejects a definition only when the new
    expression reaches the variable being defined: it returns exactly
    when it does not, and the only error it raises is the
    circular-reference error. *)
Theorem X3_setValue_exact d name newExpr :
  acyclic (vars d) →
  ∃ fuel0, ∀ fuel, fuel0 ≤ fuel →
    match setValue fuel name newExpr d with
    | Ok v d' => ¬ reaches (vars d) name (default (EValue (NULL d)) newExpr)
    | Throw err d' =>
        err = CircularReferenceError (circular_msg name) ∧
        reaches (vars d) name (default (EValue (NULL d)) newExpr)
    | OutOfFuel => False
    end.
Proof.
  intros Hac. destruct (setValue_total name newExpr d Hac) as [fuel0 H0].
  exists fuel0. intros fuel Hle. specialize (H0 fuel Hle).
  destruct (setValue_unfold fuel name newExpr d) as (v & _ & Heq).
  rewrite Heq in *.
  destruct (exprContainsVar _ _ _ _) as [[]|] eqn:Hc; simpl in *.
  - split; [done|]. apply getVar_ensure_reaches. by eapply exprContainsVar_true.
  - intros Hr%(getVar_ensure_reaches name). by eapply exprContainsVar_false in Hc.
  - by destruct H0.
Qed.

(** X3 on the two redefinitions of [x] in the graph of the test: by a
    reference to [y] (accepted) and by a reference to [z] (rejected). *)
Lemma X3_setValue_exact_witness :
  acyclic (vars xyz_graph) ∧
  (∃ fuel0, ∀ fuel, fuel0 ≤ fuel →
     match setValue fuel "x" (Some (VarRef 8 "y")) xyz_graph with
     | Ok v d' => ¬ reaches (vars xyz_graph) "x" (VarRef 8 "y")
     | Throw err d' =>
         err = CircularReferenceError (circular_msg "x") ∧
         reaches (vars xyz_graph) "x" (VarRef 8 "y")
     | OutOfFuel => False
     end) ∧
  (∃ v d', setValue 2 "x" (Some (VarRef 8 "y")) xyz_graph = Ok v d') ∧
  (∃ err d', setValue 3 "x" (Some ref_z) xyz_graph = Throw err d').
Proof.
  assert (acyclic (vars xyz_graph)) as Hac.
  { apply (acyclicb_sound 3). vm_compute. reflexivity. }
  split; [exact Hac|]. split.
  - exact (X3_setValue_exact xyz_graph "x" (Some (VarRef 8 "y")) Hac).
  - split; vm_compute; eauto.
Defined.

(** X4.  A [setValue] that returns has bound the name to the expression
    given (to the graph's [NULL] when none was given) and returns that
    [Var]; a lookup of the name then finds it; nothing else in the graph
    has changed, every other variable included. *)
Theorem X4_setValue_success fuel name newExpr d v d' :
  setValue fuel name newExpr d = Ok v d' →
  Var_value v = default (EValue (NULL d)) newExpr ∧
  d' = set_vars (<[name := v]> (vars d)) d ∧
  getVar name false d' = (Some v, d') ∧
  (∀ x, x ≠ name → vars d' !! x = vars d !! x).
Proof.
  destruct (setValue_unfold fuel name newExpr d) as (w & Hw & ->).
  destruct (exprContainsVar _ _ _ _) as [[]|]; [done| |done].
  intros [= <- <-]. split; [done|].
  assert (set_vars (<[name := mkVar (Var_name w) (default (EValue (NULL d)) newExpr)
                                   (Var_desc w)]>
                      (vars (snd (getVar name true d)))) (snd (getVar name true d))
          = set_vars (<[name := mkVar (Var_name w) (default (EValue (NULL d)) newExpr)
                                      (Var_desc w)]> (vars d)) d) as ->.
  { rewrite getVar_ensure. destruct (vars d !! name); simpl; [done|].
    unfold set_vars. simpl. by rewrite insert_insert_eq. }
  split; [done|]. split.
  - rewrite getVar_lookup. simpl. by rewrite lookup_insert_eq.
  - intros x Hne. simpl. by rewrite lookup_insert_ne.
Qed.

(** X4 on the redefinition of [x] by a reference to [y] in the graph of
    the test. *)
Lemma X4_setValue_success_witness :
  let v := mkVar "x" (VarRef 8 "y") "" in
  let d' := set_vars (<["x" := v]> (vars xyz_graph)) xyz_graph in
  setValue 2 "x" (Some (VarRef 8 "y")) xyz_graph = Ok v d' ∧
  getVar "x" false d' = (Some v, d') ∧
  vars d' !! "z" = vars xyz_graph !! "z".
Proof.
  intros v d'.
  assert (setValue 2 "x" (Some (VarRef 8 "y")) xyz_graph = Ok v d') as H
    by (vm_compute; reflexivity).
  destruct (X4_setValue_success 2 "x" _ xyz_graph v d' H) as (_ & _ & H3 & H4).
  split; [exact H|]. split; [exact H3|]. apply H4. discriminate.
Defined.

(** X5.  A definition by a literal, or by nothing at all (the variable is
    then bound to [NULL]), is accepted on every graph.  So is a definition
    by a reference to a name that has no [Var] yet; defining that name
    afterwards as a reference back to the first variable is then
    rejected. *)
Theorem X5_setValue_literal_and_forward_reference :
  (∀ fuel name d,
     ∃ v d', setValue (S fuel) name None d = Ok v d' ∧ Var_value v = EValue (NULL d)) ∧
  (∀ fuel name val d,
     ∃ v d', setValue (S fuel) name (Some (EValue val)) d = Ok v d' ∧
             Var_value v = EValue val) ∧
  (∀ fuel x y u u' d,
     x ≠ y → vars d !! y = None →
     ∃ v d1, setValue (S fuel) x (Some (VarRef u y)) d = Ok v d1 ∧
             Var_value v = VarRef u y ∧
             ∃ d2, setValue (S (S fuel)) y (Some (VarRef u' x)) d1
                   = Throw (CircularReferenceError (circular_msg y)) d2).
Proof.
  split; [|split].
  - intros fuel name d.
    destruct (setValue_unfold (S fuel) name None d) as (w & _ & ->). simpl. eauto.
  - intros fuel name val d.
    destruct (setValue_unfold (S fuel) name (Some (EValue val)) d) as (w & _ & ->).
    simpl. eauto.
  - intros fuel x y u u' d Hne Hy.
    destruct (setValue_unfold (S fuel) x (Some (VarRef u y)) d) as (w & _ & Heq).
    assert (vars (snd (getVar x true d)) !! y = None) as Hy1.
    { rewrite getVar_ensure. destruct (vars d !! x); simpl; [done|].
      by rewrite lookup_insert_ne. }
    simpl in Heq. rewrite (proj2 (String.eqb_neq y x)) in Heq by done.
    rewrite getVar_lookup in Heq. simpl in Heq. rewrite Hy1 in Heq.
    do 2 eexists. split; [exact Heq|]. split; [done|].
    match goal with |- ∃ d2, setValue _ _ _ ?dd = _ => set (d1 := dd) end.
    destruct (setValue_unfold (S (S fuel)) y (Some (VarRef u' x)) d1) as (w' & _ & ->).
    assert (vars (snd (getVar y true d1)) !! x
            = Some (mkVar (Var_name w) (VarRef u y) (Var_desc w))) as Hx.
    { apply getVar_ensure_old. subst d1. simpl. by rewrite lookup_insert_eq. }
    simpl. rewrite (proj2 (String.eqb_neq x y)) by done.
    rewrite getVar_lookup. simpl. rewrite Hx. simpl. rewrite String.eqb_refl. eauto.
Qed.

(** X5 on [a = b] and then [b = a] in a fresh graph. *)
Lemma X5_setValue_literal_and_forward_reference_witness :
  "a" ≠ "b" ∧ vars graph0 !! "b" = None ∧
  ∃ v d1, setValue 1 "a" (Some (VarRef 5 "b")) graph0 = Ok v d1 ∧
          Var_value v = VarRef 5 "b" ∧
          ∃ d2, setValue 2 "b" (Some (VarRef 6 "a")) d1
                = Throw (CircularReferenceError (circular_msg "b")) d2.
Proof.
  assert ("a" ≠ "b") as Hne by discriminate.
  assert (vars graph0 !! "b" = None) as Hb by reflexivity.
  split; [exact Hne|]. split; [exact Hb|].
  exact (proj2 (proj2 X5_setValue_literal_and_forward_reference) 0 "a" "b" 5 6 graph0 Hne Hb).
Defined.

(** [setValue] writes the variable table and nothing else. *)
Lemma setValue_final fuel name newExpr d d' :
  final_state (setValue fuel name newExpr d) = Some d' →
  d' = set_vars (vars d') d ∧
  (∀ x, is_Some (vars d !! x) → is_Some (vars d' !! x)) ∧
  (vars_named (vars d) → vars_named (vars d')).
Proof.
  destruct (setValue_unfold fuel name newExpr d) as (w & Hw & ->).
  assert (snd (getVar name true d) = set_vars (vars (snd (getVar name true d))) d
          ∧ (vars_named (vars d) → vars_named (vars (snd (getVar name true d))))
          ∧ (vars_named (vars d) → Var_name w = name)) as (E1 & N1 & Nw).
  { revert Hw. rewrite getVar_ensure. destruct (vars d !! name) as [w0|] eqn:Hn; simpl.
    - intros [= ->]. split; [by destruct d|]. split; [done|]. intros H. by apply H.
    - intros [= <-]. split; [done|]. split; [|done].
      intros H x v. destruct (decide (name = x)) as [->|Hne].
      + rewrite lookup_insert_eq. by intros [= <-].
      + rewrite lookup_insert_ne by done. apply H. }
  assert (∀ x, is_Some (vars d !! x) → is_Some (vars (snd (getVar name true d)) !! x)) as P1.
  { intros x [v Hv]. exists v. by apply getVar_ensure_old. }
  destruct (exprContainsVar _ _ _ _) as [[]|]; simpl; [| |done]; intros [= <-]; [done|].
  simpl. split; [by rewrite E1|]. split.
  - intros x Hx. destruct (decide (name = x)) as [->|Hne].
    + rewrite lookup_insert_eq. by eexists.
    + rewrite lookup_insert_ne by done. by apply P1.
  - intros H x v. destruct (decide (name = x)) as [->|Hne].
    + rewrite lookup_insert_eq. intros [= <-]. simpl. by apply Nw.
    + rewrite lookup_insert_ne by done. by apply N1.
Qed.

Lemma step_vars_persist d d' x :
  step d d' → is_Some (vars d !! x) → is_Some (vars d' !! x).
Proof.
  destruct 1 as [d|name f d|num den d|name ensure d|fuel name e d d' H
                |fuel e d d' H|fuel e d d' H|p ex d d' H]; try done.
  - by rewrite newUnits_vars.
  - destruct ensure; [|by rewrite getVar_lookup].
    intros [v Hv]. exists v. by apply getVar_ensure_old.
  - by apply (setValue_final _ _ _ _ _ H).
  - by rewrite (framed_vars _ _ (latestValue_framed _ _ _ _ H)).
  - by rewrite (framed_vars _ _ (eval_framed _ _ _ _ H)).
  - by rewrite (framed_vars _ _ (ensureExpr_framed _ _ _ _ H)).
Qed.

Lemma step_vars_named d d' :
  step d d' → vars_named (vars d) → vars_named (vars d').
Proof.
  destruct 1 as [d|name f d|num den d|name ensure d|fuel name e d d' H
                |fuel e d d' H|fuel e d d' H|p ex d d' H]; try done.
  - by rewrite newUnits_vars.
  - destruct ensure; [|by rewrite getVar_lookup].
    rewrite getVar_ensure. destruct (vars d !! name) eqn:Hn; simpl; [done|].
    intros Hnamed x v. destruct (decide (name = x)) as [->|Hne].
    + rewrite lookup_insert_eq. by intros [= <-].
    + rewrite lookup_insert_ne by done. apply Hnamed.
  - by apply (setValue_final _ _ _ _ _ H).
  - by rewrite (framed_vars _ _ (latestValue_framed _ _ _ _ H)).
  - by rewrite (framed_vars _ _ (eval_framed _ _ _ _ H)).
  - by rewrite (framed_vars _ _ (ensureExpr_framed _ _ _ _ H)).
Qed.

(** X6.  No operation removes a variable: a name bound in a graph is
    bound in every graph reached from it.  And in every graph built
    through the interface each [Var] of the table carries the name it is
    filed under. *)
Theorem X6_vars_persist :
  (∀ d d' x, rtc step d d' → is_Some (vars d !! x) → is_Some (vars d' !! x)) ∧
  (∀ d, reachable d → vars_named (vars d)).
Proof.
  split.
  - intros d d' x H. induction H as [|d1 d2 d3 Hs _ IH]; [done|].
    intros Hx. apply IH. by eapply step_vars_persist.
  - intros d [c H]. revert d H. apply rtc_ind_r.
    + intros x v. simpl. by rewrite lookup_empty.
    + intros d1 d2 _ Hs IH. by eapply step_vars_named.
Qed.

(** X6 from the fresh graph to the graph of the test, and on after the
    rejected redefinition of [x]. *)
Lemma X6_vars_persist_witness :
  reachable xyz_graph ∧
  vars_named (vars xyz_graph) ∧
  rtc step xyz_graph (state_of (setValue 3 "x" (Some ref_z) xyz_graph) xyz_graph) ∧
  is_Some (vars xyz_graph !! "y") ∧
  is_Some (vars (state_of (setValue 3 "x" (Some ref_z) xyz_graph) xyz_graph) !! "y").
Proof.
  assert (rtc step xyz_graph (state_of (setValue 3 "x" (Some ref_z) xyz_graph) xyz_graph))
    as Hs.
  { apply (rtc_step_setValue 3 "x" (Some ref_z)).
    destruct (setValue 3 "x" (Some ref_z) xyz_graph) eqn:E; try reflexivity.
    vm_compute in E. discriminate E. }
  assert (is_Some (vars xyz_graph !! "y")) as Hy by (vm_compute; eauto).
  split; [exact reachable_xyz_graph|].
  split; [exact (proj2 X6_vars_persist xyz_graph reachable_xyz_graph)|].
  split; [exact Hs|]. split; [exact Hy|].
  exact (proj1 X6_vars_persist _ _ "y" Hs Hy).
Defined.



(** ** Evaluation *)

(** A relation between graphs that holds across the elementary effects
    of an evaluation holds across the evaluation. *)
Section latestValue_invariant.
Variable R : DAG → DAG → Prop.
Hypothesis R_refl : ∀ d, R d d.
Hypothesis R_trans : ∀ d1 d2 d3, R d1 d2 → R d2 d3 → R d1 d3.
Hypothesis R_alloc : ∀ d, R d (set_counter (S (counter d)) d).
Hypothesis R_call : ∀ c d, R d (set_calls (calls d ++ [c]) d).
Hypothesis R_stamp : ∀ e v d d',
  (lastEvaluated e d < lastModified d)%Z → R d d' →
  R d (set_memo (<[Expr_uuid e := (lastModified d', v)]> (memo d')) d').

Lemma invoke_invariant name f values d d' :
  final_state (invoke name f values d) = Some d' → R d d'.
Proof using R_trans R_alloc R_call.
  unfold invoke, new_Value. destruct (f values); intros [= <-]; [|apply R_call].
  eapply R_trans; [apply R_call|]. apply (R_alloc (set_calls _ d)).
Qed.

Lemma map_latest_invariant lv args d d' :
  (∀ e d d', final_state (lv e d) = Some d' → R d d') →
  final_state (map_latest lv args d) = Some d' → R d d'.
Proof using R_refl R_trans.
  intros Hlv. revert d. induction args as [|a rest IH]; intros d; simpl.
  - intros [= <-]. apply R_refl.
  - intros [[err Ha]|(v & d1 & Ha & H)]%final_bind.
    { apply (Hlv a). by rewrite Ha. }
    assert (R d d1) as R1 by (apply (Hlv a); by rewrite Ha).
    apply final_bind in H as [[err Hr]|(vs & d2 & Hr & H)].
    + eapply R_trans; [done|]. apply IH. by rewrite Hr.
    + injection H as <-. eapply R_trans; [done|]. apply IH. by rewrite Hr.
Qed.

Lemma eval_with_invariant lv e d d' :
  (∀ e d d', final_state (lv e d) = Some d' → R d d') →
  final_state (eval_with lv e d) = Some d' → R d d'.
Proof using R_refl R_trans R_alloc R_call.
  intros Hlv. destruct e as [v|u name|u f args]; simpl.
  - intros [= <-]. apply R_refl.
  - unfold VarRef_eval. rewrite getVar_lookup.
    destruct (vars d !! name); [apply Hlv | intros [= <-]; apply R_refl].
  - unfold FuncCall_eval.
    intros [[err Hm]|(vs & d1 & Hm & H)]%final_bind.
    { eapply map_latest_invariant; [done | by rewrite Hm]. }
    assert (R d d1) as R1 by (eapply map_latest_invariant; [done | by rewrite Hm]).
    unfold getFunc in H. destruct (funcs d1 !! f).
    + eapply R_trans; [done|]. by eapply invoke_invariant.
    + by injection H as <-.
Qed.

Lemma latestValue_invariant fuel e d d' :
  final_state (latestValue fuel e d) = Some d' → R d d'.
Proof using R_refl R_trans R_alloc R_call R_stamp.
  revert e d d'. induction fuel as [|fuel IH]; intros e d d'; simpl; [done|].
  assert (final_state
    (if (lastEvaluated e d <? lastModified d)%Z then
       (let* v := eval_with (latestValue fuel) e in
        λ d', Ok v (set_memo (<[Expr_uuid e := (lastModified d', v)]> (memo d')) d')) d
     else Ok (_latestValue e d) d) = Some d' → R d d') as Hgen.
  { destruct (_ <? _)%Z eqn:Hstale; [|intros [= <-]; apply R_refl].
    apply Z.ltb_lt in Hstale.
    intros [[err He]|(v & d1 & He & H)]%final_bind.
    - eapply eval_with_invariant; [apply IH | by rewrite He].
    - injection H as <-. apply R_stamp; [done|].
      eapply eval_with_invariant; [apply IH | by rewrite He]. }
  destruct e; simpl; [intros [= <-]; apply R_refl | apply Hgen..].
Qed.

Lemma eval_invariant fuel e d d' :
  final_state (eval fuel e d) = Some d' → R d d'.
Proof using R_refl R_trans R_alloc R_call R_stamp.
  apply eval_with_invariant. intros e0 d0 d0'. apply latestValue_invariant.
Qed.
End latestValue_invariant.

(** The same for the resolver, whose only effect is to draw uuids. *)
Section parse_invariant.
Variable R : DAG → DAG → Prop.
Hypothesis R_refl : ∀ d, R d d.
Hypothesis R_trans : ∀ d1 d2 d3, R d1 d2 → R d2 d3 → R d1 d3.
Hypothesis R_alloc : ∀ d, R d (set_counter (S (counter d)) d).
Variable p : Parser.
Variable opex : OpExpr.

Lemma operand_invariant (prs : Z → nat → M (Expr * nat)) name (mk : Expr → list Expr)
    rbp i d d' :
  (∀ rbp i d d', final_state (prs rbp i d) = Some d' → R d d') →
  final_state ((let* (arg, i') := prs rbp i in
                let* e := lift (newFunc name (mk arg)) in
                ret (e, i')) d) = Some d' →
  R d d'.
Proof using R_trans R_alloc.
  intros Hprs [[err H]|([arg i'] & d1 & H & H')]%final_bind.
  - apply (Hprs rbp i). by rewrite H.
  - injection H' as <-. eapply R_trans; [apply (Hprs rbp i); by rewrite H|].
    apply R_alloc.
Qed.

Lemma nud_invariant prs index i d d' :
  (∀ rbp i d d', final_state (prs rbp i d) = Some d' → R d d') →
  final_state (nud p opex prs index i d) = Some d' → R d d'.
Proof using R_refl R_trans R_alloc.
  intros Hprs. unfold nud. destruct (isOP_at opex index).
  - unfold bind at 1.
    destruct (getOp_cases p (children opex !! index) d) as [[err ->]|(s & o & _ & _ & ->)];
      [intros [= <-]; apply R_refl|].
    destruct (_ <? _)%Z; [intros [= <-]; apply R_refl|].
    by apply (operand_invariant prs _ (λ arg, [arg])).
  - destruct (children opex !! index) as [[s|e]|]; intros [= <-]; apply R_refl.
Qed.

Lemma led_invariant prs index left i d d' :
  (∀ rbp i d d', final_state (prs rbp i d) = Some d' → R d d') →
  final_state (led p opex prs index left i d) = Some d' → R d d'.
Proof using R_refl R_trans R_alloc.
  intros Hprs. unfold led.
  destruct (isOP_at opex index); [|intros [= <-]; apply R_refl].
  unfold bind at 1.
  destruct (getOp_cases p (children opex !! index) d) as [[err ->]|(s & o & _ & _ & ->)];
    [intros [= <-]; apply R_refl|].
  destruct (_ =? _)%Z; [|destruct (_ =? _)%Z; [|intros [= <-]; apply R_refl]].
  all: by apply (operand_invariant prs _ (λ rhs, [left; rhs])).
Qed.

Lemma parse_invariant fuel :
  (∀ rbp i d d', final_state (parse p opex fuel rbp i d) = Some d' → R d d') ∧
  (∀ rbp left i d d',
     final_state (parse_while p opex fuel rbp left i d) = Some d' → R d d').
Proof using R_refl R_trans R_alloc.
  induction fuel as [|fuel [IHp IHw]]; [by split|]. split.
  - intros rbp i d d'. simpl. unfold next, throw. unfold bind at 1.
    destruct (hasMore opex i); [|intros [= <-]; apply R_refl]. simpl.
    intros [[err H]|([seed i2] & d1 & H & H')]%final_bind.
    + eapply nud_invariant; [apply IHp | by rewrite H].
    + eapply R_trans; [eapply nud_invariant; [apply IHp | by rewrite H]|].
      by eapply IHw.
  - intros rbp left i d d'. simpl.
    destruct (hasMore opex i) eqn:Hm; [|intros [= <-]; apply R_refl].
    unfold bind at 1, peek.
    destruct (bpof_cases p opex i d) as [[err ->]|[power ->]];
      [intros [= <-]; apply R_refl|].
    destruct (_ <? _)%Z; [|intros [= <-]; apply R_refl].
    unfold next. rewrite Hm. unfold bind at 1. simpl.
    intros [[err H]|([folded i2] & d1 & H & H')]%final_bind.
    + eapply led_invariant; [apply IHp | by rewrite H].
    + eapply R_trans; [eapply led_invariant; [apply IHp | by rewrite H]|].
      by eapply IHw.
Qed.

End parse_invariant.

Lemma ensureExpr_invariant (R : DAG → DAG → Prop) p ex d d' :
  (∀ d, R d d) →
  (∀ d1 d2 d3, R d1 d2 → R d2 d3 → R d1 d3) →
  (∀ d, R d (set_counter (S (counter d)) d)) →
  final_state (ensureExpr p ex d) = Some d' → R d d'.
Proof.
  intros R_refl R_trans R_alloc.
  destruct ex as [opex|e]; [|intros [= <-]; apply R_refl].
  unfold ensureExpr.
  intros [[err H]|([e i] & d1 & H & H')]%final_bind.
  - eapply (proj1 (parse_invariant R R_refl R_trans R_alloc p opex _)). by rewrite H.
  - injection H' as <-.
    eapply (proj1 (parse_invariant R R_refl R_trans R_alloc p opex _)). by rewrite H.
Qed.



Lemma rtc_step_build_sum d d' :
  final_state (build_sum d) = Some d' → rtc step d d'.
Proof.
  revert d d'. unfold build_sum.
  repeat (apply rtc_step_bind; [first [apply rtc_step_newNum | apply rtc_step_newVarRef
            | apply rtc_step_newFunc | apply rtc_step_setValue]|intros ?]).
  apply rtc_step_newFunc.
Qed.

Lemma reachable_sum_graph : reachable sum_graph.
Proof.
  eapply reachable_rtc; [apply reachable_graph0|]. apply rtc_step_build_sum.
  assert (build_sum graph0 = Ok sum_expr sum_graph) as -> by (vm_compute; reflexivity).
  reflexivity.
Qed.

Lemma sum_read_eq :
  latestValue 3 sum_expr sum_graph = Ok (mkValue 9 (JNum 8)) sum_read.
Proof. vm_compute. reflexivity. Qed.

Lemma rtc_step_sum_redefined : rtc step sum_read sum_redefined.
Proof.
  assert (∀ d d', final_state (redefine_x d) = Some d' → rtc step d d') as H.
  { unfold redefine_x. apply rtc_step_bind; [apply rtc_step_newNum|intros ?].
    apply rtc_step_setValue. }
  apply H. unfold sum_redefined.
  destruct (redefine_x sum_read) eqn:E; try reflexivity.
  vm_compute in E. discriminate E.
Qed.

(** X8.  With native functions that only compute a result from the
    values they are given (as all of stdlib.ts do; a native that calls
    back into the graph it is handed is outside this model), evaluating an
    expression, through the getter or through [eval], whether it returns
    or throws, leaves the variable table, the function registry, the units
    registry, the generation and the five singletons as they were; it can
    only draw uuids, write cache entries and append to the trace of native
    calls. *)
Theorem X8_evaluation_frame fuel e d d' :
  final_state (latestValue fuel e d) = Some d' ∨
  final_state (eval fuel e d) = Some d' →
  framed d d' ∧ calls d `prefix_of` calls d'.
Proof.
  intros H. split.
  - destruct H; [by eapply latestValue_framed | by eapply eval_framed].
  - revert H.
    assert (∀ d1 d2 d3 : DAG, calls d1 `prefix_of` calls d2 →
              calls d2 `prefix_of` calls d3 → calls d1 `prefix_of` calls d3) as Ht
      by (intros ???; apply transitivity).
    assert (∀ (c : string * list Value) (d0 : DAG),
              calls d0 `prefix_of` calls (set_calls (calls d0 ++ [c]) d0)) as Hc
      by (intros c d0; by exists [c]).
    intros [H|H].
    + by apply (latestValue_invariant (λ d d', calls d `prefix_of` calls d')) in H.
    + by apply (eval_invariant (λ d d', calls d `prefix_of` calls d')) in H.
Qed.

(** X8 on the first read of [x + 5]. *)
Lemma X8_evaluation_frame_witness :
  final_state (latestValue 3 sum_expr sum_graph) = Some sum_read ∧
  framed sum_graph sum_read ∧
  calls sum_graph `prefix_of` calls sum_read ∧
  Var_value <$> vars sum_read !! "x" = Some three.
Proof.
  assert (final_state (latestValue 3 sum_expr sum_graph) = Some sum_read) as H
    by (by rewrite sum_read_eq).
  destruct (X8_evaluation_frame 3 sum_expr sum_graph sum_read (or_introl H)) as [F P].
  split; [exact H|]. split; [exact F|]. split; [exact P|].
  vm_compute. reflexivity.
Defined.

(** X9.  A read that returned is cached: the next read of the same
    expression, with nothing done to the graph in between, returns the
    same value and leaves the graph, its trace of native calls included,
    exactly as it is. *)
Theorem X9_second_read_is_cached fuel fuel' e d v d1 :
  latestValue fuel e d = Ok v d1 → latestValue (S fuel') e d1 = Ok v d1.
Proof. apply latestValue_reread. Qed.

(** X9 on [x + 5]: the first read calls ["+"], the second does not. *)
Lemma X9_second_read_is_cached_witness :
  latestValue 3 sum_expr sum_graph = Ok (mkValue 9 (JNum 8)) sum_read ∧
  length (calls sum_graph) = 0 ∧ length (calls sum_read) = 1 ∧
  latestValue 1 sum_expr sum_read = Ok (mkValue 9 (JNum 8)) sum_read.
Proof.
  split; [exact sum_read_eq|]. split; [reflexivity|]. split; [vm_compute; reflexivity|].
  exact (X9_second_read_is_cached 3 0 sum_expr sum_graph _ sum_read sum_read_eq).
Defined.

Lemma memo_kept_refl d : memo_kept d d.
Proof. by split. Qed.

Lemma memo_kept_trans d1 d2 d3 : memo_kept d1 d2 → memo_kept d2 d3 → memo_kept d1 d3.
Proof.
  intros [L1 K1] [L2 K2]. split; [congruence|].
  intros u g v Hu Hg. apply K2; [by apply K1 | by rewrite L1].
Qed.

Lemma memo_kept_same d d' :
  lastModified d' = lastModified d → memo d' = memo d → memo_kept d d'.
Proof. intros L E. split; [done|]. intros u g v. by rewrite E. Qed.

Lemma latestValue_memo_kept fuel e d d' :
  final_state (latestValue fuel e d) = Some d' → memo_kept d d'.
Proof.
  apply (latestValue_invariant memo_kept memo_kept_refl memo_kept_trans).
  - intros d0. by apply memo_kept_same.
  - intros c d0. by apply memo_kept_same.
  - intros e0 v d0 d0' Hstale [L K]. split; [done|].
    intros u g w Hu Hg. simpl. rewrite lookup_insert_ne; [by apply K|].
    intros <-. unfold lastEvaluated in Hstale. rewrite Hu in Hstale. lia.
Qed.

Lemma eval_memo_kept fuel e d d' :
  final_state (eval fuel e d) = Some d' → memo_kept d d'.
Proof.
  apply (eval_with_invariant memo_kept memo_kept_refl memo_kept_trans).
  - intros d0. by apply memo_kept_same.
  - intros c d0. by apply memo_kept_same.
  - intros e0 d0 d0'. apply latestValue_memo_kept.
Qed.

Lemma step_memo_kept d d' : step d d' → memo_kept d d'.
Proof.
  destruct 1 as [d|name f d|num den d|name ensure d|fuel name e d d' H
                |fuel e d d' H|fuel e d d' H|p ex d d' H].
  - by apply memo_kept_same.
  - by apply memo_kept_same.
  - apply memo_kept_same; unfold newUnits; by destruct (unitsMap d !! _).
  - apply memo_kept_same; unfold getVar; destruct (vars d !! name); try done;
      by destruct ensure.
  - apply setValue_final in H as (-> & _). by apply memo_kept_same.
  - by eapply latestValue_memo_kept.
  - by eapply eval_memo_kept.
  - eapply (ensureExpr_invariant memo_kept);
      [apply memo_kept_refl | apply memo_kept_trans | | done].
    intros d0. by apply memo_kept_same.
Qed.

Lemma rtc_step_memo_kept d d' : rtc step d d' → memo_kept d d'.
Proof.
  induction 1 as [|d1 d2 d3 Hs _ IH]; [apply memo_kept_refl|].
  eapply memo_kept_trans; [by apply step_memo_kept | done].
Qed.

(** What a returned read leaves in the cache. *)
Lemma latestValue_cached_entry fuel e d v d1 :
  (0 ≤ lastModified d)%Z →
  latestValue fuel e d = Ok v d1 →
  e = EValue v ∨
  ∃ g, memo d1 !! Expr_uuid e = Some (g, v) ∧ (lastModified d1 ≤ g)%Z.
Proof.
  intros Hgen. destruct fuel as [|fuel]; [done|]. simpl.
  assert (
    (if (lastEvaluated e d <? lastModified d)%Z then
       (let* v := eval_with (latestValue fuel) e in
        λ d', Ok v (set_memo (<[Expr_uuid e := (lastModified d', v)]> (memo d')) d')) d
     else Ok (_latestValue e d) d) = Ok v d1 →
    ∃ g, memo d1 !! Expr_uuid e = Some (g, v) ∧ (lastModified d1 ≤ g)%Z) as Hcase.
  { destruct (_ <? _)%Z eqn:Hstale.
    - unfold bind. destruct (eval_with _ e d) as [v0 d'|err d'|]; [|done..].
      intros [= <- <-]. simpl. rewrite lookup_insert_eq. eexists. split; [done | lia].
    - apply Z.ltb_ge in Hstale. unfold lastEvaluated, _latestValue in *.
      destruct (memo d !! Expr_uuid e) as [[g w]|] eqn:Hm; [|lia].
      intros [= <- <-]. rewrite Hm. eexists. by split. }
  destruct e; simpl; [intros [= <- _]; by left | right; by apply Hcase..].
Qed.

(** A read that finds a current entry returns it and does nothing. *)
Lemma latestValue_hit fuel e d g v :
  memo d !! Expr_uuid e = Some (g, v) → (lastModified d ≤ g)%Z →
  (∀ w, e ≠ EValue w) →
  latestValue (S fuel) e d = Ok v d.
Proof.
  intros Hm Hle Hne. simpl.
  assert ((if (lastEvaluated e d <? lastModified d)%Z then
       (let* v := eval_with (latestValue fuel) e in
        λ d', Ok v (set_memo (<[Expr_uuid e := (lastModified d', v)]> (memo d')) d')) d
     else Ok (_latestValue e d) d) = Ok v d) as Hcase.
  { unfold lastEvaluated, _latestValue. rewrite Hm.
    by rewrite (proj2 (Z.ltb_ge _ _) Hle). }
  destruct e; [by destruct (Hne v0) | exact Hcase..].
Qed.

(** X10.  Nothing in the interface advances the generation, so a cached
    value is never recomputed: once a read of an expression has returned
    a value, every later read of that expression returns the same value
    and does nothing to the graph, whatever operations (redefinitions of
    variables included) were performed in between. *)
Theorem X10_cached_value_is_permanent fuel fuel' e d v d1 d2 :
  (0 ≤ lastModified d)%Z →
  latestValue fuel e d = Ok v d1 →
  rtc step d1 d2 →
  latestValue (S fuel') e d2 = Ok v d2.
Proof.
  intros Hgen Hread [L K]%rtc_step_memo_kept.
  destruct (latestValue_cached_entry _ _ _ _ _ Hgen Hread) as [->|(g & Hg & Hle)];
    [done|].
  destruct e as [w|u name|u f args].
  - destruct fuel; [done|]. by injection Hread as <- _.
  - eapply latestValue_hit; [by apply K | by rewrite L | done].
  - eapply latestValue_hit; [by apply K | by rewrite L | done].
Qed.

(** X10 on [x + 5]: read once with [x = 3], then read again after [x]
    has been redefined to 10. *)
Lemma X10_cached_value_is_permanent_witness :
  (0 ≤ lastModified sum_graph)%Z ∧
  latestValue 3 sum_expr sum_graph = Ok (mkValue 9 (JNum 8)) sum_read ∧
  rtc step sum_read sum_redefined ∧
  Var_value <$> vars sum_redefined !! "x" = Some (lit 10 10) ∧
  latestValue 1 sum_expr sum_redefined = Ok (mkValue 9 (JNum 8)) sum_redefined.
Proof.
  assert (0 ≤ lastModified sum_graph)%Z as H0 by (vm_compute; discriminate).
  split; [exact H0|]. split; [exact sum_read_eq|].
  split; [exact rtc_step_sum_redefined|]. split; [vm_compute; reflexivity|].
  exact (X10_cached_value_is_permanent 3 0 sum_expr sum_graph _ sum_read sum_redefined
           H0 sum_read_eq rtc_step_sum_redefined).
Defined.

(** An expression that the traversal explores within [n] levels is
    evaluated within [n] nested getter calls. *)
Lemma latestValue_explorable n e d :
  explorable n (vars d) e = true → is_Some (final_state (latestValue n e d)).
Proof.
  revert e d. induction n as [|n IH]; intros e d; simpl; [done|].
  assert (∀ args d, forallb (explorable n (vars d)) args = true →
            is_Some (final_state (map_latest (latestValue n) args d))) as Hargs.
  { clear e d. intros args. induction args as [|a rest IHa]; intros d; simpl; [by eexists|].
    intros [Ha Hr]%andb_prop. unfold bind at 1.
    destruct (IH _ _ Ha) as [d1 H1].
    destruct (latestValue n a d) as [v d1'|err d1'|] eqn:Ea; simpl in *; [|by eexists|done].
    injection H1 as ->.
    assert (vars d1 = vars d) as Hv.
    { apply (framed_vars d d1), (latestValue_framed n a). by rewrite Ea. }
    rewrite <- Hv in Hr. destruct (IHa _ Hr) as [d2 H2]. unfold bind.
    destruct (map_latest _ rest d1) as [vs d2'|err d2'|]; simpl in *; [|by eexists|done].
    by eexists. }
  assert (explorable (S n) (vars d) e = true →
          is_Some (final_state (eval_with (latestValue n) e d))) as Heval.
  { destruct e as [v|u x|u f args]; simpl.
    - by eexists.
    - unfold VarRef_eval. rewrite getVar_lookup. destruct (vars d !! x); [apply IH | by eexists].
    - intros H. unfold FuncCall_eval, bind. destruct (Hargs _ _ H) as [d1 H1].
      destruct (map_latest _ args d) as [vs d1'|err d1'|]; simpl in *; [|by eexists|done].
      unfold getFunc. destruct (funcs d1' !! f) as [func|]; [|by eexists].
      unfold invoke, new_Value. destruct (func vs); by eexists. }
  intros H. specialize (Heval H).
  assert (is_Some (final_state
    (if (lastEvaluated e d <? lastModified d)%Z then
       (let* v := eval_with (latestValue n) e in
        λ d', Ok v (set_memo (<[Expr_uuid e := (lastModified d', v)]> (memo d')) d')) d
     else Ok (_latestValue e d) d))) as Hcase.
  { destruct (_ <? _)%Z; [|by eexists]. unfold bind.
    destruct (eval_with _ e d) as [v d1|err d1|]; simpl in *; [by eexists..|done]. }
  destruct e; [by eexists | exact Hcase..].
Qed.

(** X11.  On an acyclic variable table the evaluation of any expression
    finishes: given enough nesting budget, the getter returns a value or
    throws. *)
Theorem X11_evaluation_terminates d e :
  acyclic (vars d) →
  ∃ fuel0, ∀ fuel, fuel0 ≤ fuel → is_Some (final_state (latestValue fuel e d)).
Proof.
  intros [n Hn]. exists (n + S (height e)). intros fuel Hle.
  apply latestValue_explorable. eapply explorable_mono; [done|]. by apply explorable_any.
Qed.

(** X11 on a read of the reference to [z] in the graph of the test. *)
Lemma X11_evaluation_terminates_witness :
  acyclic (vars xyz_graph) ∧
  (∃ fuel0, ∀ fuel, fuel0 ≤ fuel →
     is_Some (final_state (latestValue fuel ref_z xyz_graph))) ∧
  match latestValue 4 ref_z xyz_graph with
  | Ok v _ => Value_value v = JNum 8
  | _ => False
  end.
Proof.
  assert (acyclic (vars xyz_graph)) as Hac.
  { apply (acyclicb_sound 3). vm_compute. reflexivity. }
  split; [exact Hac|]. split; [exact (X11_evaluation_terminates xyz_graph ref_z Hac)|].
  vm_compute. reflexivity.
Defined.

(** ** Units *)

Lemma step_units_wf d d' : step d d' → units_wf d → units_wf d'.
Proof.
  destruct 1 as [d|name f d|num den d|name ensure d|fuel name e d d' H
                |fuel e d d' H|fuel e d d' H|p ex d d' H]; try done.
  - apply newUnits_units_wf.
  - unfold getVar. destruct (vars d !! name); [done|]. by destruct ensure.
  - apply setValue_final in H as (-> & _). done.
  - apply latestValue_framed in H as [_ _ _ Hm Ha]. unfold units_wf. by rewrite Hm, Ha.
  - apply eval_framed in H as [_ _ _ Hm Ha]. unfold units_wf. by rewrite Hm, Ha.
  - apply ensureExpr_framed in H as [_ _ _ Hm Ha]. unfold units_wf. by rewrite Hm, Ha.
Qed.

Lemma reachable_units_wf d : reachable d → units_wf d.
Proof.
  intros [c H]. revert d H. apply rtc_ind_r.
  - intros key u. simpl. by rewrite lookup_empty.
  - intros d1 d2 _ Hs IH. by eapply step_units_wf.
Qed.

(** X12.  The units registry of a graph built through the interface (its
    keys point at instances of matching key) stays that way under
    [newUnits].  The instance returned has the key of the request; when
    the key was new it is a new instance holding the lists as given;
    instances made earlier are untouched; and a request with a different
    key never returns the same instance. *)
Theorem X12_newUnits_registry d num den :
  units_wf d →
  let u := fst (newUnits num den d) in
  let d' := snd (newUnits num den d) in
  units_wf d' ∧
  (∃ un, unitsArena d' !! u = Some un ∧
         units_key (Units_num un) (Units_den un) = units_key num den) ∧
  (unitsMap d !! units_key num den = None →
   u = length (unitsArena d) ∧ unitsArena d' !! u = Some (mkUnits num den)) ∧
  (∀ u0 un0, unitsArena d !! u0 = Some un0 → unitsArena d' !! u0 = Some un0) ∧
  (∀ num' den', units_key num' den' ≠ units_key num den →
                fst (newUnits num' den' d') ≠ u).
Proof.
  intros Hwf u d'.
  assert (units_wf d') as Hwf' by by apply newUnits_units_wf.
  assert (∃ un, unitsArena d' !! u = Some un ∧
                units_key (Units_num un) (Units_den un) = units_key num den) as Hu.
  { apply Hwf'. apply newUnits_interned. }
  split; [done|]. split; [done|]. split; [|split].
  - intros Hk. subst u d'. unfold newUnits. rewrite Hk. simpl. split; [done|].
    by rewrite lookup_app_r, Nat.sub_diag.
  - intros u0 un0 H0. subst d'. unfold newUnits.
    destruct (unitsMap d !! units_key num den); simpl; [done|].
    by apply lookup_app_l_Some.
  - intros num' den' Hne. destruct Hu as (un & Hun & Hkey).
    unfold newUnits. destruct (unitsMap d' !! units_key num' den') as [u'|] eqn:Hk'; simpl.
    + intros ->. apply Hwf' in Hk' as (un' & Hun' & Hkey'). congruence.
    + apply lookup_lt_Some in Hun. lia.
Qed.

(** X12 on two requests in a fresh graph. *)
Lemma X12_newUnits_registry_witness :
  let d' := snd (newUnits [js "m"] [js "s"] (new_DAG 0)) in
  units_wf (new_DAG 0) ∧
  fst (newUnits [js "m"] [js "s"] (new_DAG 0)) = 0 ∧
  unitsArena d' !! 0 = Some (mkUnits [js "m"] [js "s"]) ∧
  fst (newUnits [js "s"] [js "m"] d') ≠ 0.
Proof.
  intros d'.
  assert (units_wf (new_DAG 0)) as Hwf.
  { intros key u. simpl. by rewrite lookup_empty. }
  destruct (X12_newUnits_registry (new_DAG 0) [js "m"] [js "s"] Hwf)
    as (_ & _ & H3 & _ & H5).
  split; [exact Hwf|]. split; [reflexivity|]. split.
  - apply H3. reflexivity.
  - apply H5. vm_compute. discriminate.
Defined.

Lemma js_sort_sorted l : Sorted code_le l → js_sort l = l.
Proof.
  intros Hl.
  apply (@Sorted_unique _ code_le code_le_trans code_le_antisym);
    [apply js_sort_Sorted | done |].
  apply merge_sort_Permutation.
Qed.

(** X13.  Units are interned under the sorted names joined with [":"],
    so a single name that contains the separator is taken for the names
    it splits into: for two names [x] and [y] in code-unit order, the
    request for the one name [x:y] returns the instance interned for the
    two names [x] and [y]. *)
Theorem X13_newUnits_separator_collision x y den d :
  code_le x y →
  newUnits [x ++ js ":" ++ y] den (snd (newUnits [x; y] den d))
  = (fst (newUnits [x; y] den d), snd (newUnits [x; y] den d)).
Proof.
  intros Hle.
  assert (units_key [x ++ js ":" ++ y] den = units_key [x; y] den) as Hkey.
  { unfold units_key. rewrite (js_sort_sorted [x; y]) by (repeat constructor; done).
    rewrite (js_sort_sorted [_]) by (repeat constructor). done. }
  pose proof (newUnits_interned [x; y] den d) as Hk. rewrite <- Hkey in Hk.
  unfold newUnits at 1. by rewrite Hk.
Qed.

(** X13 on the names [a], [b] and [a:b]. *)
Lemma X13_newUnits_separator_collision_witness :
  code_le (js "a") (js "b") ∧
  js "a" ++ js ":" ++ js "b" = js "a:b" ∧
  fst (newUnits [js "a:b"] [] (snd (newUnits [js "a"; js "b"] [] (new_DAG 0))))
  = fst (newUnits [js "a"; js "b"] [] (new_DAG 0)).
Proof.
  assert (code_le (js "a") (js "b")) as H by reflexivity.
  split; [exact H|]. split; [reflexivity|].
  exact (f_equal fst (X13_newUnits_separator_collision (js "a") (js "b") [] (new_DAG 0) H)).
Defined.

(** ** The resolver on other chains *)

Lemma push_new xs : push xs new_OpExpr = mkOpExpr (is_string <$> xs) xs.
Proof.
  assert (∀ ex, push xs ex
                = mkOpExpr (isOP ex ++ (is_string <$> xs)) (children ex ++ xs)) as H.
  { induction xs as [|x xs IH]; intros ex; simpl.
    - rewrite !app_nil_r. by destruct ex.
    - rewrite IH. simpl. by rewrite <- !app_assoc. }
  by rewrite H.
Qed.

(** Runs the resolver on a chain whose first tokens are given, using the
    table entries and comparisons found among the hypotheses. *)
Ltac crank := repeat first
  [ progress cbn -[Z.ltb Z.eqb Z.sub number_sub]
  | progress unfold bind, ret, throw, lift, next, hasMore, peek, bpof, getOp
  | match goal with H : opinfos _ !! _ = _ |- _ => rewrite H end
  | match goal with H : Operator.assoc _ = _ |- _ => rewrite H end
  | match goal with H : (_ <? _)%Z = _ |- _ => rewrite H end
  | match goal with H : (_ =? _)%Z = _ |- _ => rewrite H end
  | progress change (Operator.LEFT =? Operator.LEFT)%Z with true
  | progress change (Operator.LEFT =? Operator.RIGHT)%Z with false
  | progress change (Operator.RIGHT =? Operator.LEFT)%Z with false
  | progress change (Operator.RIGHT =? Operator.RIGHT)%Z with true ].

(** X14.  [push] appends its items in order and keeps the flags of
    [isOP] in step with [children]; the two rule handlers that assemble a
    chain append the operators and then the resolved term, so the chains
    they return are in step as well. *)
Theorem X14_chains_stay_aligned :
  aligned new_OpExpr ∧
  (∀ xs ex, aligned ex →
     aligned (push xs ex) ∧ children (push xs ex) = children ex ++ xs) ∧
  (∀ p ops term d c d',
     newOpExprList p ops term d = Ok c d' →
     aligned c ∧
     ∃ e, ensureExpr p term d = Ok e d' ∧
          children c = (IOp <$> default [] ops) ++ [ITerm e]) ∧
  (∀ p lhs ops term d c d',
     aligned lhs →
     concatOpExprList p lhs ops term d = Ok c d' →
     aligned c ∧
     ∃ e, ensureExpr p term d = Ok e d' ∧
          children c = children lhs ++ (IOp <$> ops) ++ [ITerm e]).
Proof.
  split; [done|]. split; [|split].
  - intros xs ex H. split; [by apply push_aligned | apply push_children].
  - intros p ops term d c d'. unfold newOpExprList, bind.
    destruct (ensureExpr p term d) as [e d1|err d1|]; [|done..].
    set (out := match ops with
                | Some ops0 => push (IOp <$> ops0) new_OpExpr
                | None => new_OpExpr
                end).
    intros H. assert (c = push [ITerm e] out ∧ d' = d1) as [-> ->]
      by (by injection H).
    assert (aligned out ∧ children out = IOp <$> default [] ops) as [Ho Hc].
    { unfold out. destruct ops; simpl; [|done].
      split; [by apply push_aligned | by rewrite push_children]. }
    split; [by apply push_aligned|].
    exists e. split; [done|]. by rewrite push_children, Hc.
  - intros p lhs ops term d c d' Hal. unfold concatOpExprList, bind.
    destruct (ensureExpr p term d) as [e d1|err d1|]; [|done..].
    intros H. assert (c = push [ITerm e] (push (IOp <$> ops) lhs) ∧ d' = d1) as [-> ->]
      by (by injection H).
    split; [by apply push_aligned, push_aligned|].
    exists e. split; [done|]. by rewrite !push_children, <- app_assoc.
Qed.

(** X14 on the chain the front end builds for ["1 + 2 + 3"]. *)
Lemma X14_chains_stay_aligned_witness :
  let c1 := push [ITerm (lit 5 1)] new_OpExpr in
  let d1 := snd (newNum 2 (snd (newNum 1 (new_DAG 0)))) in
  aligned c1 ∧
  concatOpExprList test_table c1 ["+"] (inr (lit 6 2)) d1
  = Ok (push [IOp "+"; ITerm (lit 6 2)] c1) d1 ∧
  aligned (push [IOp "+"; ITerm (lit 6 2)] c1) ∧
  children (push [IOp "+"; ITerm (lit 6 2)] c1)
  = [ITerm (lit 5 1); IOp "+"; ITerm (lit 6 2)].
Proof.
  intros c1 d1.
  assert (aligned c1) as Hal by reflexivity.
  assert (concatOpExprList test_table c1 ["+"] (inr (lit 6 2)) d1
          = Ok (push [IOp "+"; ITerm (lit 6 2)] c1) d1) as H by reflexivity.
  destruct X14_chains_stay_aligned as (_ & _ & _ & H4).
  destruct (H4 test_table c1 ["+"] _ d1 _ d1 Hal H) as [Hal' _].
  split; [exact Hal|]. split; [exact H|]. split; [exact Hal'|]. reflexivity.
Defined.

Section right_chain.
Variable p : Parser.
Variable opex : OpExpr.
Variable s : string.
Variable o : Operator.t.
Hypothesis opex_aligned : aligned opex.
Hypothesis o_registered : opinfos p !! s = Some o.
Hypothesis o_RIGHT : Operator.assoc o = Operator.RIGHT.

(** [led] on a RIGHT operator: [op(left, parse(bp - 1))]. *)
Lemma led_RIGHT prs t left rhs i i' d d' :
  children opex !! t = Some (IOp s) →
  prs (number_sub (Operator.bp o) 1) i d = Ok (rhs, i') d' →
  led p opex prs t left i d =
    Ok (FuncCall (counter d') (Operator.op o) [left; rhs], i')
       (set_counter (S (counter d')) d').
Proof using opex_aligned o_registered o_RIGHT.
  intros Hc Hp. unfold led.
  rewrite (isOP_at_aligned _ _ opex_aligned), Hc. simpl. rewrite o_registered.
  unfold bind at 1, ret. rewrite o_RIGHT. simpl. unfold bind at 1. by rewrite Hp.
Qed.

Lemma drop_length i (x : item) rest :
  drop i (children opex) = x :: rest → length (children opex) = i + S (length rest).
Proof using Type.
  intros H. pose proof (f_equal length H) as Hl. rewrite length_drop in Hl.
  simpl in Hl. lia.
Qed.

Hypothesis o_pred : (number_sub (Operator.bp o) 1 < Operator.bp o)%Z.

(** [parse] on an operand followed by operators of the one RIGHT
    operator only, under a threshold below its binding power, takes the
    whole rest of the chain and nests it to the right. *)
Lemma parse_right_chain ts :
  ∀ fuel rbp t i d,
    drop i (children opex) = ITerm t :: infix_tail s ts →
    (rbp < Operator.bp o)%Z →
    2 * length ts + 2 ≤ fuel →
    parse p opex fuel rbp i d =
      Ok (right_calls (Operator.op o) (counter d) t ts, i + 1 + 2 * length ts)
         (set_counter (counter d + length ts) d).
Proof using opex_aligned o_registered o_RIGHT o_pred.
  induction ts as [|t' ts IH]; intros fuel rbp t i d Hd Hrbp Hf.
  - destruct fuel as [|[|fuel]]; [simpl in Hf; lia..|].
    pose proof Hd as (Hx & Hm & Hrest)%drop_cons_lookup.
    rewrite parse_seed by done. unfold bind.
    rewrite (nud_term _ _ _ _ t); [|by rewrite (isOP_at_aligned _ _ opex_aligned), Hx | done].
    rewrite parse_while_end by by apply drop_nil_hasMore.
    simpl. rewrite !Nat.add_0_r. replace (i + 1) with (S i) by lia. by destruct d.
  - destruct fuel as [|[|[|fuel]]]; [simpl in Hf; lia..|].
    pose proof (drop_length _ _ _ Hd) as Hlen.
    pose proof Hd as (Hx & Hm & Hrest)%drop_cons_lookup. simpl in Hrest.
    pose proof Hrest as (Hx1 & Hm1 & Hrest1)%drop_cons_lookup.
    rewrite parse_seed by done. unfold bind at 1.
    rewrite (nud_term _ _ _ _ t); [|by rewrite (isOP_at_aligned _ _ opex_aligned), Hx | done].
    rewrite (parse_while_fold _ _ _ _ _ _ _ (Operator.bp o));
      [|done | by eapply bpof_registered | done].
    unfold bind at 1.
    rewrite (led_RIGHT _ _ _ (right_calls (Operator.op o) (counter d) t' ts)
               _ (S (S i) + 1 + 2 * length ts) _ (set_counter (counter d + length ts) d));
      [|done | apply IH; [done | done | simpl in Hf; lia]].
    rewrite parse_while_end.
    + simpl. f_equal; [f_equal; lia|]. unfold set_counter. simpl. f_equal. lia.
    + apply Nat.ltb_ge. rewrite Hlen. simpl.
      assert (length (infix_tail s ts) = 2 * length ts) as ->; [|lia].
      clear. induction ts as [|t ts IH]; simpl; [done|]. rewrite IH. lia.
Qed.
End right_chain.

(** Above 2^53 the difference can round back: [2^53 + 4 - 1] is
    [2^53 + 4] again. *)
Lemma number_sub_rounds :
  number_sub 9007199254740996 1 = 9007199254740996%Z ∧
  number_sub 9007199254740992 1 = 9007199254740991%Z.
Proof. split; reflexivity. Qed.

Lemma number_sub_exact x y :
  (Z.abs (x - y) < 2 ^ 53)%Z → number_sub x y = (x - y)%Z.
Proof.
  intros H. unfold number_sub, round_binary64. cbv zeta.
  by rewrite (proj2 (Z.ltb_lt _ _) H).
Qed.

(** X15.  A chain [t0 op t1 op ... op tn] of one RIGHT operator whose
    binding power is positive and at most 2^53 (so that [bp - 1] is a
    smaller number) resolves to the right-nested calls
    [op(t0, op(t1, ... op(t(n-1), tn)))]. *)
Theorem X15_right_chain_nests_right p s o t0 ts d :
  opinfos p !! s = Some o →
  Operator.assoc o = Operator.RIGHT →
  (0 < Operator.bp o ≤ 2 ^ 53)%Z →
  ensureExpr p (inl (push (ITerm t0 :: infix_tail s ts) new_OpExpr)) d =
    Ok (right_calls (Operator.op o) (counter d) t0 ts)
       (set_counter (counter d + length ts) d).
Proof.
  intros Ho Ha Hbp. set (opex := push _ _).
  assert (aligned opex) as Hal by by apply push_aligned.
  assert (children opex = ITerm t0 :: infix_tail s ts) as Hch
    by (unfold opex; by rewrite push_children).
  assert (length (children opex) = S (2 * length ts)) as Hlen.
  { rewrite Hch. simpl. f_equal. unfold infix_tail. clear.
    induction ts as [|t ts IH]; simpl; [done|]. rewrite IH. lia. }
  assert (number_sub (Operator.bp o) 1 < Operator.bp o)%Z as Hpred.
  { rewrite number_sub_exact; lia. }
  unfold ensureExpr. rewrite Hlen. unfold bind.
  rewrite (parse_right_chain p opex s o Hal Ho Ha Hpred ts _ 0%Z t0 0 d);
    [done | by rewrite Hch | lia | lia].
Qed.

(** X15 on [2 ** 3 ** 4] with a RIGHT operator added to the table of the
    tests. *)
Lemma X15_right_chain_nests_right_witness :
  let o := Operator.new "**" 60 (Some Operator.RIGHT) None in
  let p := setOP o test_table in
  let d := snd (newNum 4 (snd (newNum 3 (snd (newNum 2 (new_DAG 0)))))) in
  opinfos p !! "**" = Some o ∧
  Operator.assoc o = Operator.RIGHT ∧
  (0 < Operator.bp o ≤ 2 ^ 53)%Z ∧
  ensureExpr p
    (inl (push [ITerm (lit 5 2); IOp "**"; ITerm (lit 6 3); IOp "**"; ITerm (lit 7 4)]
               new_OpExpr)) d
  = Ok (FuncCall 9 "**" [lit 5 2; FuncCall 8 "**" [lit 6 3; lit 7 4]])
       (set_counter 10 d).
Proof.
  intros o p d.
  assert (opinfos p !! "**" = Some o) as Ho by (vm_compute; reflexivity).
  assert (Operator.assoc o = Operator.RIGHT) as Ha by reflexivity.
  assert (0 < Operator.bp o ≤ 2 ^ 53)%Z as Hbp by (split; [reflexivity | discriminate]).
  split; [exact Ho|]. split; [exact Ha|]. split; [exact Hbp|].
  exact (X15_right_chain_nests_right p "**" o (lit 5 2) [lit 6 3; lit 7 4] d Ho Ha Hbp).
Defined.

(** X16.  Precedence between two LEFT operators in a chain
    [a op1 b op2 c]: when [op2] binds strictly more tightly than [op1] it
    takes [b] first, giving [op1(a, op2(b, c))]; otherwise [op1] is folded
    first, giving [op2(op1(a, b), c)]. *)
Theorem X16_precedence p s1 s2 o1 o2 a b c d :
  opinfos p !! s1 = Some o1 → opinfos p !! s2 = Some o2 →
  Operator.assoc o1 = Operator.LEFT → Operator.assoc o2 = Operator.LEFT →
  (0 < Operator.bp o1)%Z → (0 < Operator.bp o2)%Z →
  ensureExpr p (inl (push [ITerm a; IOp s1; ITerm b; IOp s2; ITerm c] new_OpExpr)) d
  = if (Operator.bp o1 <? Operator.bp o2)%Z then
      Ok (FuncCall (S (counter d)) (Operator.op o1)
            [a; FuncCall (counter d) (Operator.op o2) [b; c]])
         (set_counter (S (S (counter d))) d)
    else
      Ok (FuncCall (S (counter d)) (Operator.op o2)
            [FuncCall (counter d) (Operator.op o1) [a; b]; c])
         (set_counter (S (S (counter d))) d).
Proof.
  intros Ho1 Ho2 Ha1 Ha2 Hp1%Z.ltb_lt Hp2%Z.ltb_lt.
  rewrite push_new. unfold ensureExpr.
  destruct (Operator.bp o1 <? Operator.bp o2)%Z eqn:Hlt; crank; reflexivity.
Qed.

(** X16 on [1 + 2 * 3] and [1 * 2 + 3] with the table of the tests. *)
Lemma X16_precedence_witness :
  let plus := Operator.new "+" 10 (Some Operator.LEFT) (Some 100%Z) in
  let times := Operator.new "*" 30 None None in
  let d := snd (newNum 3 (snd (newNum 2 (snd (newNum 1 (new_DAG 0)))))) in
  opinfos test_table !! "+" = Some plus ∧ opinfos test_table !! "*" = Some times ∧
  ensureExpr test_table
    (inl (push [ITerm (lit 5 1); IOp "+"; ITerm (lit 6 2); IOp "*"; ITerm (lit 7 3)]
               new_OpExpr)) d
  = Ok (FuncCall 9 "+" [lit 5 1; FuncCall 8 "*" [lit 6 2; lit 7 3]]) (set_counter 10 d) ∧
  ensureExpr test_table
    (inl (push [ITerm (lit 5 1); IOp "*"; ITerm (lit 6 2); IOp "+"; ITerm (lit 7 3)]
               new_OpExpr)) d
  = Ok (FuncCall 9 "+" [FuncCall 8 "*" [lit 5 1; lit 6 2]; lit 7 3]) (set_counter 10 d).
Proof.
  intros plus times d.
  assert (opinfos test_table !! "+" = Some plus) as Hp by (vm_compute; reflexivity).
  assert (opinfos test_table !! "*" = Some times) as Ht by (vm_compute; reflexivity).
  split; [exact Hp|]. split; [exact Ht|]. split.
  - exact (X16_precedence test_table "+" "*" plus times (lit 5 1) (lit 6 2) (lit 7 3) d
             Hp Ht eq_refl eq_refl eq_refl eq_refl).
  - exact (X16_precedence test_table "*" "+" times plus (lit 5 1) (lit 6 2) (lit 7 3) d
             Ht Hp eq_refl eq_refl eq_refl eq_refl).
Defined.

(** X17.  A prefix operator before an infix one, in a chain
    [pre a op b] with [op] LEFT: when the prefix binding power is at
    least the binding power of [op], the prefix call closes first and
    the result is [op(pre(a), b)]; when it is lower, the prefix call takes
    the whole of [op(a, b)]. *)
Theorem X17_prefix_then_infix p s1 s2 o1 o2 a b d :
  opinfos p !! s1 = Some o1 → opinfos p !! s2 = Some o2 →
  (0 ≤ Operator.prefixBP o1)%Z →
  Operator.assoc o2 = Operator.LEFT → (0 < Operator.bp o2)%Z →
  ensureExpr p (inl (push [IOp s1; ITerm a; IOp s2; ITerm b] new_OpExpr)) d
  = if (Operator.prefixBP o1 <? Operator.bp o2)%Z then
      Ok (FuncCall (S (counter d)) (Operator.op o1)
            [FuncCall (counter d) (Operator.op o2) [a; b]])
         (set_counter (S (S (counter d))) d)
    else
      Ok (FuncCall (S (counter d)) (Operator.op o2)
            [FuncCall (counter d) (Operator.op o1) [a]; b])
         (set_counter (S (S (counter d))) d).
Proof.
  intros Ho1 Ho2 Hpre%Z.ltb_ge Ha2 Hp2%Z.ltb_lt.
  rewrite push_new. unfold ensureExpr.
  destruct (Operator.prefixBP o1 <? Operator.bp o2)%Z eqn:Hlt; crank; reflexivity.
Qed.

(** X17 on [- 3 + 5] with the table of the tests, and with a table in
    which the prefix power of [-] is below the power of [+]. *)
Lemma X17_prefix_then_infix_witness :
  let plus := Operator.new "+" 10 (Some Operator.LEFT) (Some 100%Z) in
  let minus := Operator.new "-" 10 (Some Operator.LEFT) (Some 100%Z) in
  let weak := Operator.new "-" 10 (Some Operator.LEFT) (Some 5%Z) in
  let d := snd (newNum 5 (snd (newNum 3 (new_DAG 0)))) in
  opinfos test_table !! "-" = Some minus ∧ opinfos test_table !! "+" = Some plus ∧
  ensureExpr test_table
    (inl (push [IOp "-"; ITerm (lit 5 3); IOp "+"; ITerm (lit 6 5)] new_OpExpr)) d
  = Ok (FuncCall 8 "+" [FuncCall 7 "-" [lit 5 3]; lit 6 5]) (set_counter 9 d) ∧
  ensureExpr (setOP weak test_table)
    (inl (push [IOp "-"; ITerm (lit 5 3); IOp "+"; ITerm (lit 6 5)] new_OpExpr)) d
  = Ok (FuncCall 8 "-" [FuncCall 7 "+" [lit 5 3; lit 6 5]]) (set_counter 9 d).
Proof.
  intros plus minus weak d.
  assert (opinfos test_table !! "-" = Some minus) as Hm by (vm_compute; reflexivity).
  assert (opinfos test_table !! "+" = Some plus) as Hp by (vm_compute; reflexivity).
  assert (opinfos (setOP weak test_table) !! "-" = Some weak) as Hw
    by (vm_compute; reflexivity).
  assert (opinfos (setOP weak test_table) !! "+" = Some plus) as Hp'
    by (vm_compute; reflexivity).
  assert (0 ≤ 100)%Z as H100 by discriminate.
  assert (0 ≤ 5)%Z as H5 by discriminate.
  split; [exact Hm|]. split; [exact Hp|]. split.
  - exact (X17_prefix_then_infix test_table "-" "+" minus plus (lit 5 3) (lit 6 5) d
             Hm Hp H100 eq_refl eq_refl).
  - exact (X17_prefix_then_infix (setOP weak test_table) "-" "+" weak plus
             (lit 5 3) (lit 6 5) d Hw Hp' H5 eq_refl eq_refl).
Defined.

(** X18.  An operator that is neither LEFT nor RIGHT cannot be used
    between two terms: a chain [t0 op ...] in which [op] has a positive
    binding power is rejected with "OP (op) has nonassoc", and nothing is
    built. *)
Theorem X18_nonassoc_rejected p s o t0 rest d :
  opinfos p !! s = Some o →
  Operator.assoc o ≠ Operator.LEFT → Operator.assoc o ≠ Operator.RIGHT →
  (0 < Operator.bp o)%Z →
  ensureExpr p (inl (push (ITerm t0 :: IOp s :: rest) new_OpExpr)) d
  = Throw (JsError ("OP (" +:+ Operator.op o +:+ ") has nonassoc")) d.
Proof.
  intros Ho HL%Z.eqb_neq HR%Z.eqb_neq Hp%Z.ltb_lt.
  rewrite push_new. unfold ensureExpr. crank. reflexivity.
Qed.

(** X18 on [1 = 2] with a NOASSOC operator added to the table of the
    tests. *)
Lemma X18_nonassoc_rejected_witness :
  let o := Operator.new "=" 5 (Some Operator.NOASSOC) None in
  let p := setOP o test_table in
  let d := snd (newNum 2 (snd (newNum 1 (new_DAG 0)))) in
  opinfos p !! "=" = Some o ∧
  ensureExpr p (inl (push [ITerm (lit 5 1); IOp "="; ITerm (lit 6 2)] new_OpExpr)) d
  = Throw (JsError "OP (=) has nonassoc") d.
Proof.
  intros o p d.
  assert (opinfos p !! "=" = Some o) as Ho by (vm_compute; reflexivity).
  assert (Operator.assoc o ≠ Operator.LEFT) as HL by discriminate.
  assert (Operator.assoc o ≠ Operator.RIGHT) as HR by discriminate.
  split; [exact Ho|].
  exact (X18_nonassoc_rejected p "=" o (lit 5 1) [ITerm (lit 6 2)] d Ho HL HR eq_refl).
Defined.

(** X19.  The outermost [parse] runs with threshold 0, so an operator
    whose binding power is not positive is never consumed there: a chain
    [t0 op ...] with such an operator resolves to [t0] alone, the rest of
    the chain is dropped without an error and nothing is built. *)
Theorem X19_nonpositive_power_drops_rest p s o t0 rest d :
  opinfos p !! s = Some o →
  (Operator.bp o ≤ 0)%Z →
  ensureExpr p (inl (push (ITerm t0 :: IOp s :: rest) new_OpExpr)) d = Ok t0 d.
Proof.
  intros Ho Hp%Z.ltb_ge.
  rewrite push_new. unfold ensureExpr. crank. reflexivity.
Qed.

(** X19 on [1 ? 2] with an operator of binding power 0 added to the
    table of the tests. *)
Lemma X19_nonpositive_power_drops_rest_witness :
  let o := Operator.new "?" 0 None None in
  let p := setOP o test_table in
  let d := snd (newNum 2 (snd (newNum 1 (new_DAG 0)))) in
  opinfos p !! "?" = Some o ∧ (Operator.bp o ≤ 0)%Z ∧
  ensureExpr p (inl (push [ITerm (lit 5 1); IOp "?"; ITerm (lit 6 2)] new_OpExpr)) d
  = Ok (lit 5 1) d.
Proof.
  intros o p d.
  assert (opinfos p !! "?" = Some o) as Ho by (vm_compute; reflexivity).
  assert (Operator.bp o ≤ 0)%Z as Hp by (vm_compute; discriminate).
  split; [exact Ho|]. split; [exact Hp|].
  exact (X19_nonpositive_power_drops_rest p "?" o (lit 5 1) [ITerm (lit 6 2)] d Ho Hp).
Defined.

(** X20.  An operator symbol that is not in the table is rejected with
    "Invalid operator: " followed by the symbol, whether it opens the
    chain or follows the first term; nothing is built. *)
Theorem X20_unknown_operator p s d :
  opinfos p !! s = None →
  (∀ rest, ensureExpr p (inl (push (IOp s :: rest) new_OpExpr)) d
           = Throw (JsError ("Invalid operator: " +:+ s)) d) ∧
  (∀ t0 rest, ensureExpr p (inl (push (ITerm t0 :: IOp s :: rest) new_OpExpr)) d
              = Throw (JsError ("Invalid operator: " +:+ s)) d).
Proof.
  intros Ho. split; intros; rewrite push_new; unfold ensureExpr; crank; reflexivity.
Qed.

(** X20 on [1 % 2]: the table of the claims has no ["%"]. *)
Lemma X20_unknown_operator_witness :
  let d := snd (newNum 2 (snd (newNum 1 (new_DAG 0)))) in
  opinfos test_table !! "%" = None ∧
  ensureExpr test_table
    (inl (push [ITerm (lit 5 1); IOp "%"; ITerm (lit 6 2)] new_OpExpr)) d
  = Throw (JsError "Invalid operator: %") d.
Proof.
  intros d.
  assert (opinfos test_table !! "%" = None) as Ho by (vm_compute; reflexivity).
  split; [exact Ho|].
  exact (proj2 (X20_unknown_operator test_table "%" d Ho) (lit 5 1) [ITerm (lit 6 2)]).
Defined.

(** X21.  A chain that runs out where a token is needed is rejected with
    "No more tokens": the empty chain, a chain [t0 op] that stops after a
    LEFT or RIGHT operator of positive binding power, and a chain made of
    one prefix operator.  Nothing is built. *)
Theorem X21_no_more_tokens :
  (∀ p d, ensureExpr p (inl new_OpExpr) d = Throw (JsError "No more tokens") d) ∧
  (∀ p s o t0 d,
     opinfos p !! s = Some o →
     Operator.assoc o = Operator.LEFT ∨ Operator.assoc o = Operator.RIGHT →
     (0 < Operator.bp o)%Z →
     ensureExpr p (inl (push [ITerm t0; IOp s] new_OpExpr)) d
     = Throw (JsError "No more tokens") d) ∧
  (∀ p s o d,
     opinfos p !! s = Some o →
     (0 ≤ Operator.prefixBP o)%Z →
     ensureExpr p (inl (push [IOp s] new_OpExpr)) d
     = Throw (JsError "No more tokens") d).
Proof.
  split; [done|]. split.
  - intros p s o t0 d Ho [Ha|Ha] Hp%Z.ltb_lt;
      rewrite push_new; unfold ensureExpr; crank; reflexivity.
  - intros p s o d Ho Hp%Z.ltb_ge.
    rewrite push_new. unfold ensureExpr. crank. reflexivity.
Qed.

(** X21 on [1 +] and on [-] with the table of the tests. *)
Lemma X21_no_more_tokens_witness :
  let plus := Operator.new "+" 10 (Some Operator.LEFT) (Some 100%Z) in
  let d := snd (newNum 1 (new_DAG 0)) in
  opinfos test_table !! "+" = Some plus ∧
  ensureExpr test_table (inl (push [ITerm (lit 5 1); IOp "+"] new_OpExpr)) d
  = Throw (JsError "No more tokens") d ∧
  ensureExpr test_table (inl (push [IOp "+"] new_OpExpr)) d
  = Throw (JsError "No more tokens") d.
Proof.
  intros plus d.
  assert (opinfos test_table !! "+" = Some plus) as Hp by (vm_compute; reflexivity).
  assert (0 ≤ 100)%Z as H100 by discriminate.
  destruct X21_no_more_tokens as (_ & H2 & H3).
  split; [exact Hp|]. split.
  - exact (H2 test_table "+" plus (lit 5 1) d Hp (or_introl eq_refl) eq_refl).
  - exact (H3 test_table "+" plus d Hp H100).
Defined.

(** X22.  Two terms in a row are rejected: after the first term the
    resolver asks for the binding power of the item at index 1 and throws
    "Item at index is not an operator: 1".  Nothing is built. *)
Theorem X22_adjacent_terms p t0 t1 rest d :
  ensureExpr p (inl (push (ITerm t0 :: ITerm t1 :: rest) new_OpExpr)) d
  = Throw (JsError "Item at index is not an operator: 1") d.
Proof.
  rewrite push_new. unfold ensureExpr.
  cbn -[pretty]. unfold bind, next, hasMore, ret. cbn -[pretty].
  unfold bpof, peek, throw. cbn -[pretty]. reflexivity.
Qed.

(** X23.  The resolver builds calls and does nothing else: whether it
    returns or throws, the graph it leaves is the graph it found with
    some uuids drawn; no variable, function, unit, cache entry or native
    call is touched. *)
Theorem X23_resolver_only_draws_uuids p ex d d' :
  final_state (ensureExpr p ex d) = Some d' →
  d' = set_counter (counter d') d ∧ counter d ≤ counter d'.
Proof.
  apply (ensureExpr_invariant
           (λ d d', d' = set_counter (counter d') d ∧ counter d ≤ counter d')).
  - intros d0. split; [by destruct d0 | done].
  - intros d1 d2 d3 [E1 L1] [E2 L2]. split; [|lia].
    rewrite E2 at 1. rewrite E1 at 1. done.
  - intros d0. split; [done | simpl; lia].
Qed.

(** X23 on the resolution of [1 + 2 + 3]. *)
Lemma X23_resolver_only_draws_uuids_witness :
  let chain := push [ITerm (lit 5 1); IOp "+"; ITerm (lit 6 2); IOp "+"; ITerm (lit 7 3)]
                    new_OpExpr in
  final_state (ensureExpr test_table (inl chain) graph_123)
  = Some (set_counter 10 graph_123) ∧
  set_counter 10 graph_123 = set_counter (counter (set_counter 10 graph_123)) graph_123.
Proof.
  intros chain.
  assert (final_state (ensureExpr test_table (inl chain) graph_123)
          = Some (set_counter 10 graph_123)) as H by (vm_compute; reflexivity).
  split; [exact H|].
  exact (proj1 (X23_resolver_only_draws_uuids test_table (inl chain) graph_123 _ H)).
Defined.

(** X24.  An operator that comes directly after an infix operator stands
    in prefix position: in a chain [a op pre b] with [op] LEFT, [pre] is
    resolved by [nud], giving [op(a, pre(b))] when [pre] has a prefix
    binding power (whatever the two powers are) and the
    not-a-prefix-operator error when it has none. *)
Theorem X24_infix_then_prefix p s1 s2 o1 o2 a b d :
  opinfos p !! s1 = Some o1 → opinfos p !! s2 = Some o2 →
  Operator.assoc o1 = Operator.LEFT → (0 < Operator.bp o1)%Z →
  ensureExpr p (inl (push [ITerm a; IOp s1; IOp s2; ITerm b] new_OpExpr)) d
  = if (Operator.prefixBP o2 <? 0)%Z then
      Throw (JsError "([object Object]) is not be a prefix operator") d
    else
      Ok (FuncCall (S (counter d)) (Operator.op o1)
            [a; FuncCall (counter d) (Operator.op o2) [b]])
         (set_counter (S (S (counter d))) d).
Proof.
  intros Ho1 Ho2 Ha1 Hp1%Z.ltb_lt.
  rewrite push_new. unfold ensureExpr.
  destruct (Operator.prefixBP o2 <? 0)%Z eqn:Hpre; crank; reflexivity.
Qed.

(** X24 on [3 + - 5] and [3 + * 5] with the table of the tests. *)
Lemma X24_infix_then_prefix_witness :
  let plus := Operator.new "+" 10 (Some Operator.LEFT) (Some 100%Z) in
  let minus := Operator.new "-" 10 (Some Operator.LEFT) (Some 100%Z) in
  let times := Operator.new "*" 30 None None in
  let d := snd (newNum 5 (snd (newNum 3 (new_DAG 0)))) in
  opinfos test_table !! "+" = Some plus ∧ opinfos test_table !! "-" = Some minus ∧
  opinfos test_table !! "*" = Some times ∧
  ensureExpr test_table
    (inl (push [ITerm (lit 5 3); IOp "+"; IOp "-"; ITerm (lit 6 5)] new_OpExpr)) d
  = Ok (FuncCall 8 "+" [lit 5 3; FuncCall 7 "-" [lit 6 5]]) (set_counter 9 d) ∧
  ensureExpr test_table
    (inl (push [ITerm (lit 5 3); IOp "+"; IOp "*"; ITerm (lit 6 5)] new_OpExpr)) d
  = Throw (JsError "([object Object]) is not be a prefix operator") d.
Proof.
  intros plus minus times d.
  assert (opinfos test_table !! "+" = Some plus) as Hp by (vm_compute; reflexivity).
  assert (opinfos test_table !! "-" = Some minus) as Hm by (vm_compute; reflexivity).
  assert (opinfos test_table !! "*" = Some times) as Ht by (vm_compute; reflexivity).
  split; [exact Hp|]. split; [exact Hm|]. split; [exact Ht|]. split.
  - exact (X24_infix_then_prefix test_table "+" "-" plus minus (lit 5 3) (lit 6 5) d
             Hp Hm eq_refl eq_refl).
  - exact (X24_infix_then_prefix test_table "+" "*" plus times (lit 5 3) (lit 6 5) d
             Hp Ht eq_refl eq_refl).
Defined.
